(** * archived<Value>: a commit chain with lazy, path-compressing diffs

    Shallow embedding of [archived.h].  The commits of an [archived<Value>]
    live in the nodes of a [std::forward_list]; iterators into that list are
    node addresses, and they are what a commit's successor field and a
    version hold.  The model therefore has an explicit node store (a finite
    map from addresses to commits), an allocator that hands out node
    addresses, and the two data members [storage_] and [last_]. *)

From stdpp Require Import base option list gmap fin_maps relations strings.
From Stdlib Require Import ZArith Lia.

(** ** Outcomes of a call *)

(** What goes wrong when an iterator that designates no live node is
    dereferenced, or when control reaches the closing brace of a function
    that has to return a value.  The language leaves all three undefined. *)
Inductive fault : Type :=
  | NullIterator      (* a value-initialised (singular) iterator, or end() *)
  | DanglingIterator  (* an iterator to a node that has been destroyed *)
  | MissingReturn.    (* flowing off the end of a value-returning function *)

(** The ways a call can end.  [Raised] is an exception leaving the call;
    no statement of [archived.h] throws, so none of the functions below
    builds it.  [Diverged] is the recursion of [compute_diff_to_current]
    running past its depth budget. *)
Inductive outcome (A : Type) : Type :=
  | Returned (a : A)
  | Raised
  | Undefined (f : fault)
  | Diverged.
Arguments Returned {A} a.
Arguments Raised {A}.
Arguments Undefined {A} f.
Arguments Diverged {A}.

#[global] Instance outcome_ret : MRet outcome := fun A a => Returned a.
#[global] Instance outcome_bind : MBind outcome := fun A B k o =>
  match o with
  | Returned a => k a
  | Raised => Raised
  | Undefined f => Undefined f
  | Diverged => Diverged
  end.

(** Node addresses and [forward_list] iterators.  [None] is the singular
    iterator obtained by value-initialisation; it is also [end()]. *)
Definition addr : Type := nat.
Definition iterator : Type := option addr.

Section Archived.

Context {Value : Type}.
(** [Value()] and [operator+=] of the value type. *)
Variable zero : Value.
Variable add : Value → Value → Value.

(** [class commit : std::pair<iterator_type, Value>]. *)
Record commit : Type := Commit { first : iterator; second : Value }.

(** [class version]: its only member. *)
Record version : Type := Version { archive_iterator_ : iterator }.

(** [version::version()] *)
Definition version_default : version := Version None.

(** The program state: the live list nodes [mem], the next address the
    allocator hands out [brk] (addresses are never handed out twice), and
    the members of the [archived] object: [storage_], the node addresses of
    the forward list from front to back, and [last_]. *)
Record state : Type := State {
  mem : gmap addr commit;
  brk : addr;
  storage_ : list addr;
  last_ : version
}.

Definition with_mem (st : state) (m : gmap addr commit) : state :=
  State m (brk st) (storage_ st) (last_ st).

(** [storage_.begin()]; on an empty list this is [end()]. *)
Definition begin (l : list addr) : iterator := head l.

(** [*it] *)
Definition deref (m : gmap addr commit) (it : iterator) : outcome commit :=
  match it with
  | None => Undefined NullIterator
  | Some a =>
      match m !! a with
      | Some c => Returned c
      | None => Undefined DanglingIterator
      end
  end.

(** [it->first = x] *)
Definition set_first (m : gmap addr commit) (it : iterator) (x : iterator)
  : outcome (gmap addr commit) :=
  c ← deref m it;
  match it with
  | Some a => Returned (<[a := Commit x (second c)]> m)
  | None => Undefined NullIterator
  end.

(** [it->second = v] *)
Definition set_second (m : gmap addr commit) (it : iterator) (v : Value)
  : outcome (gmap addr commit) :=
  c ← deref m it;
  match it with
  | Some a => Returned (<[a := Commit (first c) v]> m)
  | None => Undefined NullIterator
  end.

(** [archived::is_head_commit] *)
Definition is_head_commit (m : gmap addr commit) (iterator_to_commit : iterator)
  : outcome bool :=
  c ← deref m iterator_to_commit;
  Returned (bool_decide (first c = iterator_to_commit)).

(** [archived::compute_diff_to_current], with the depth of the recursion
    bounded by [depth]. *)
Fixpoint compute_diff_to_current_rec (depth : nat) (old : iterator)
    (m : gmap addr commit) : outcome (gmap addr commit) :=
  match depth with
  | O => Diverged
  | S depth' =>
      c ← deref m old;
      let next := first c in
      b ← is_head_commit m next;
      if negb b then
        m1 ← compute_diff_to_current_rec depth' next m;
        (* old->second += next->second; *)
        cn ← deref m1 next;
        co ← deref m1 old;
        m2 ← set_second m1 old (add (second co) (second cn));
        (* old->first = next->first; *)
        cn' ← deref m2 next;
        set_first m2 old (first cn')
      else Returned m
  end.

(** A chain without a cycle visits each live node at most once, so a depth
    of one more than the number of live nodes is never exhausted on it; on
    a cyclic chain the recursion of the source does not end. *)
Definition compute_diff_to_current (old : iterator) (m : gmap addr commit)
  : outcome (gmap addr commit) :=
  compute_diff_to_current_rec (S (size m)) old m.

(** [archived::create_head_commit] *)
Definition create_head_commit (st : state) : state :=
  let a := brk st in
  let head := Commit None zero in
  (* storage_.push_front( head ); *)
  let m1 := <[a := head]> (mem st) in
  let l1 := a :: storage_ st in
  (* storage_.front().first = storage_.begin(); *)
  State (<[a := Commit (begin l1) (second head)]> m1) (S a) l1 (last_ st).

(** [archived::increment_by] *)
Definition increment_by (increment : Value) (st : state)
  : outcome (version * state) :=
  let old_head := begin (storage_ st) in
  m1 ← set_second (mem st) old_head increment;
  let st1 := create_head_commit (with_mem st m1) in
  let new_head := begin (storage_ st1) in
  m2 ← set_first (mem st1) old_head new_head;
  Returned (Version new_head, with_mem st1 m2).

(** The free function [diff_to_current]. *)
Definition diff_to_current (old : version) (st : state)
  : outcome (Value * state) :=
  let archive_iterator := archive_iterator_ old in
  m' ← compute_diff_to_current (archive_iterator_ old) (mem st);
  c ← deref m' archive_iterator;
  Returned (second c, with_mem st m').

(** [archived::value] *)
Definition value (st : state) : outcome (Value * state) :=
  diff_to_current (last_ st) st.

(** [storage_.clear()]: every node of the list is destroyed. *)
Definition clear (st : state) : state :=
  State (foldr delete (mem st) (storage_ st)) (brk st) [] (last_ st).

(** [archived::reset] *)
Definition reset (initial_value : Value) (st : state)
  : outcome (version * state) :=
  let st1 := clear st in
  let st2 := create_head_commit st1 in
  let st3 := State (mem st2) (brk st2) (storage_ st2)
                   (Version (begin (storage_ st2))) in
  increment_by initial_value st3.

(** The statements of [archived::clear_history], up to its closing brace:
    [const auto current_value = value(); reset( value() );].  The version
    that [reset] returns is dropped. *)
Definition clear_history_statements (st : state) : outcome state :=
  '(current_value, st1) ← value st;
  '(v, st2) ← value st1;
  '(_, st3) ← reset v st2;
  Returned st3.

(** [archived::clear_history].  After its statements the body ends without
    a [return] statement, in a function declared to return a
    [version_type]: every call that gets that far is undefined. *)
Definition clear_history (st : state) : outcome (version * state) :=
  _ ← clear_history_statements st;
  Undefined MissingReturn.

(** [archived::current] *)
Definition current (st : state) : version :=
  Version (begin (storage_ st)).

(** The constructor [archived::archived]: both members are
    value-initialised, then [reset] runs; its result is discarded. *)
Definition blank : state := State ∅ 0 [] version_default.

Definition archived (initial_value : Value) : outcome state :=
  '(_, st) ← reset initial_value blank;
  Returned st.

(** ** Notions used to state the properties *)

(** [d1 + ... + dk], read from the left as the language does; the empty sum
    is [Value()]. *)
Definition sum_deltas (l : list Value) : Value :=
  match l with
  | [] => zero
  | x :: l' => foldl add x l'
  end.

(** The commits met when walking the successor fields from [a] up to and
    including the head, in a store [m]. *)
Fixpoint path_from (n : nat) (m : gmap addr commit) (a : addr) : list addr :=
  match n with
  | O => []
  | S n' =>
      match m !! a with
      | None => []
      | Some c =>
          match first c with
          | None => [a]
          | Some b => if decide (b = a) then [a] else a :: path_from n' m b
          end
      end
  end.

Definition path_to_head (m : gmap addr commit) (a : addr) : list addr :=
  path_from (S (size m)) m a.

(** The deltas recorded on the links of that walk (the head has none). *)
Fixpoint deltas_from (n : nat) (m : gmap addr commit) (a : addr) : list Value :=
  match n with
  | O => []
  | S n' =>
      match m !! a with
      | None => []
      | Some c =>
          match first c with
          | None => []
          | Some b => if decide (b = a) then [] else second c :: deltas_from n' m b
          end
      end
  end.

Definition deltas_to_head (m : gmap addr commit) (a : addr) : list Value :=
  deltas_from (S (size m)) m a.

(** A commit that is its own successor. *)
Definition self_successor (m : gmap addr commit) (a : addr) : bool :=
  match m !! a with
  | Some c => bool_decide (first c = Some a)
  | None => false
  end.

(** A version is valid in a state when it designates a node of the list. *)
Definition valid (st : state) (s : version) : Prop :=
  ∃ a, archive_iterator_ s = Some a ∧ a ∈ storage_ st.

(** A version is stale when the node it designates was handed out earlier
    and is no longer in the list. *)
Definition stale (st : state) (s : version) : Prop :=
  ∃ a, archive_iterator_ s = Some a ∧ a < brk st ∧ a ∉ storage_ st.

(** [increment_by] called once per element of [ds], in order; the versions
    returned are collected in the same order. *)
Fixpoint increment_all (ds : list Value) (st : state)
  : outcome (list version * state) :=
  match ds with
  | [] => Returned ([], st)
  | d :: ds' =>
      '(s, st1) ← increment_by d st;
      '(vs, st2) ← increment_all ds' st1;
      Returned (s :: vs, st2)
  end.

(** One completed call of a public operation or of [diff_to_current].
    ([current] is [const] and leaves the state as it is.)  No call of
    [clear_history] completes; the state its statements leave is a step all
    the same, so that what holds of every reachable state also holds for a
    program that goes on after such a call. *)
Inductive step (st st' : state) : Prop :=
  | step_increment_by d s : increment_by d st = Returned (s, st') → step st st'
  | step_value x : value st = Returned (x, st') → step st st'
  | step_diff_to_current s x :
      diff_to_current s st = Returned (x, st') → step st st'
  | step_clear_history : clear_history_statements st = Returned st' → step st st'
  | step_reset v s : reset v st = Returned (s, st') → step st st'.

(** [grows ds st st']: [st'] is reached from [st] by the calls
    [increment_by d] for the [d] of [ds], in order, with any number of
    completed queries ([diff_to_current], and so [value]) before, between
    and after them. *)
Inductive grows : list Value → state → state → Prop :=
  | grows_done st : grows [] st st
  | grows_increment_by d ds st s st1 st' :
      increment_by d st = Returned (s, st1) → grows ds st1 st' →
      grows (d :: ds) st st'
  | grows_query ds st s x st1 st' :
      diff_to_current s st = Returned (x, st1) → grows ds st1 st' →
      grows ds st st'.

(** The states an [archived] object can be in: those reached from its
    constructor by completed calls. *)
Definition reachable (st : state) : Prop :=
  ∃ v st0, archived v = Returned st0 ∧ rtc step st0 st.

(** A completed [reset], or the statements of [clear_history] run to their
    end. *)
Definition discards (st st' : state) : Prop :=
  (∃ v r, reset v st = Returned (r, st')) ∨
  clear_history_statements st = Returned st'.

(** [diff_to_current(s)] returns [x]; [value()] returns [w]. *)
Definition answers (st : state) (s : version) (x : Value) : Prop :=
  ∃ st', diff_to_current s st = Returned (x, st').

Definition value_is (st : state) (w : Value) : Prop :=
  ∃ st', value st = Returned (w, st').

(** A call ends in an error the caller can catch: an exception leaves it. *)
Definition fails_catchably {A} (o : outcome A) : Prop := o = Raised.

(** The ghost histories after [increment_by d] has made [h'] the head. *)
Definition grow (G : addr → list Value) (h' : addr) (d : Value)
  : addr → list Value :=
  λ a, if decide (a = h') then [] else G a ++ [d].

(** The ghost histories after [reset v] has made [o] the origin. *)
Definition fresh_history (o : addr) (v : Value) : addr → list Value :=
  λ a, if decide (a = o) then [v] else [].

(** ** The representation invariant *)

(** [G a] is the ghost history of commit [a]: the increments applied since
    [a] stopped being the head, oldest first.  A non-head commit stands for
    a non-empty prefix of its history and points at the commit whose history
    is the rest.  [tracks s l] is what the invariant records about the delta
    [s] stored for the increments [l]. *)
Definition recorded (tracks : Value → list Value → Prop)
    (s : Value) (l : list Value) : Prop :=
  match l with
  | [] => s = zero
  | _ => tracks s l
  end.

Record chain_inv (tracks : Value → list Value → Prop)
    (m : gmap addr commit) (h : addr) (G : addr → list Value) : Prop := ChainInv {
  chain_head : m !! h = Some (Commit (Some h) zero);
  chain_head_G : G h = [];
  chain_link : ∀ a c, m !! a = Some c → a ≠ h →
    ∃ b l, first c = Some b ∧ is_Some (m !! b) ∧ l ≠ [] ∧
           G a = l ++ G b ∧ tracks (second c) l
}.

Record inv (tracks : Value → list Value → Prop)
    (st : state) (h : addr) (G : addr → list Value) : Prop := Inv {
  inv_begin : ∃ olds, storage_ st = h :: olds;
  inv_chain : chain_inv tracks (mem st) h G;
  inv_dom : ∀ a, a ∈ storage_ st ↔ is_Some (mem st !! a);
  inv_nodup : NoDup (storage_ st);
  inv_brk : brk st = S h;
  inv_below : ∀ a, a ∈ storage_ st → a ≤ h;
  inv_size : size (mem st) = length (storage_ st);
  inv_depth : ∀ a, is_Some (mem st !! a) → length (G a) < length (storage_ st);
  inv_last : ∃ o, last_ st = Version (Some o) ∧ is_Some (mem st !! o) ∧ o ≠ h
}.

(** Nothing recorded about the deltas: the shape of the chain alone. *)
Definition shape (s : Value) (l : list Value) : Prop := True.

(** Each delta is the sum of the increments it stands for. *)
Definition sums (s : Value) (l : list Value) : Prop := s = sum_deltas l.

Ltac map_cases :=
  apply map_eq; intros ?; rewrite ?lookup_insert;
  repeat case_decide; simplify_eq; try done; try lia.

(** ** Unfolding the operations *)

Lemma compute_rec_stop n m a b s s' :
  m !! a = Some (Commit (Some b) s) → m !! b = Some (Commit (Some b) s') →
  compute_diff_to_current_rec (S n) (Some a) m = Returned m.
Proof.
  intros Ha Hb. simpl. unfold is_head_commit. rewrite Ha. simpl.
  rewrite Hb. simpl. by rewrite bool_decide_eq_true_2.
Qed.

Lemma compute_rec_link n m m1 a b s cb fb sa sb :
  m !! a = Some (Commit (Some b) s) → m !! b = Some cb → first cb ≠ Some b →
  a ≠ b →
  compute_diff_to_current_rec n (Some b) m = Returned m1 →
  m1 !! a = Some (Commit (Some b) sa) → m1 !! b = Some (Commit fb sb) →
  compute_diff_to_current_rec (S n) (Some a) m
  = Returned (<[a := Commit fb (add sa sb)]> m1).
Proof.
  intros Ha Hb Hcb Hne Hrec Ha1 Hb1. simpl.
  unfold is_head_commit, set_second, set_first. rewrite Ha. simpl.
  rewrite Hb. simpl. rewrite (bool_decide_eq_false_2 _ Hcb). simpl.
  rewrite Hrec. simpl. rewrite Hb1. simpl. rewrite Ha1. simpl.
  rewrite (lookup_insert_ne _ a b) by done. rewrite Hb1. simpl.
  rewrite lookup_insert_eq. simpl. by rewrite insert_insert_eq.
Qed.

Lemma with_mem_id st : with_mem st (mem st) = st.
Proof. by destruct st. Qed.

Lemma increment_by_eq st h olds c d :
  storage_ st = h :: olds → mem st !! h = Some c → brk st ≠ h →
  increment_by d st =
  Returned (Version (Some (brk st)),
            State (<[h := Commit (Some (brk st)) d]>
                     (<[brk st := Commit (Some (brk st)) zero]> (mem st)))
                  (S (brk st)) (brk st :: h :: olds) (last_ st)).
Proof.
  intros Hs Hh Hne. unfold increment_by, set_second, set_first.
  rewrite Hs. simpl. rewrite Hh. simpl.
  rewrite (lookup_insert_ne _ (brk st) h) by done.
  rewrite (lookup_insert_ne _ (brk st) h) by done.
  rewrite lookup_insert_eq. simpl.
  unfold with_mem. simpl. rewrite ?Hs. do 3 f_equal. map_cases.
Qed.

Lemma reset_eq st v :
  reset v st =
  Returned (Version (Some (S (brk st))),
            State (<[brk st := Commit (Some (S (brk st))) v]>
                     (<[S (brk st) := Commit (Some (S (brk st))) zero]>
                        (foldr delete (mem st) (storage_ st))))
                  (S (S (brk st))) [S (brk st); brk st]
                  (Version (Some (brk st)))).
Proof.
  unfold reset.
  erewrite increment_by_eq; [|simpl; reflexivity|apply lookup_insert_eq|simpl; lia].
  simpl. do 3 f_equal. map_cases.
Qed.

Lemma diff_to_current_eq st a m' c :
  compute_diff_to_current (Some a) (mem st) = Returned m' → m' !! a = Some c →
  diff_to_current (Version (Some a)) st = Returned (second c, with_mem st m').
Proof.
  intros Hm Ha. unfold diff_to_current. simpl. rewrite Hm. simpl. by rewrite Ha.
Qed.

Lemma diff_to_current_null st :
  diff_to_current version_default st = Undefined NullIterator.
Proof. reflexivity. Qed.

Lemma diff_to_current_dangling st a :
  mem st !! a = None →
  diff_to_current (Version (Some a)) st = Undefined DanglingIterator.
Proof.
  intros Ha. unfold diff_to_current, compute_diff_to_current. simpl.
  by rewrite Ha.
Qed.

(** A commit that already points at the head is answered on the spot, and
    the store is left as it is. *)
Lemma diff_to_current_direct st a h s s' :
  mem st !! a = Some (Commit (Some h) s) →
  mem st !! h = Some (Commit (Some h) s') →
  diff_to_current (Version (Some a)) st = Returned (s, st).
Proof.
  intros Ha Hh.
  erewrite diff_to_current_eq; [|by eapply compute_rec_stop|exact Ha].
  by rewrite with_mem_id.
Qed.

(** [value()] right after [reset(v)] is [v], whatever the state was. *)
Lemma reset_value st v :
  ∃ s st1, reset v st = Returned (s, st1) ∧ value st1 = Returned (v, st1).
Proof.
  do 2 eexists. split; [apply reset_eq|]. unfold value. simpl.
  eapply diff_to_current_direct; simpl.
  - apply lookup_insert_eq.
  - rewrite lookup_insert_ne by lia. apply lookup_insert_eq.
Qed.

(** ** The invariant is kept *)

Section Invariant.

(** The invariant is kept for every [tracks] that holds of a single
    increment and is kept when two deltas are added. *)
Variable tracks : Value → list Value → Prop.

Hypothesis tracks_single : ∀ d, tracks d [d].
Hypothesis tracks_app : ∀ s1 l1 s2 l2,
  l1 ≠ [] → l2 ≠ [] → tracks s1 l1 → tracks s2 l2 →
  tracks (add s1 s2) (l1 ++ l2).

Lemma chain_link_inv m h G a c :
  chain_inv tracks m h G → m !! a = Some c → a ≠ h →
  ∃ b l s, c = Commit (Some b) s ∧ tracks s l ∧ is_Some (m !! b) ∧ l ≠ [] ∧
         G a = l ++ G b ∧ b ≠ a ∧ length (G b) < length (G a).
Proof.
  intros Hc Ha Hne.
  destruct (chain_link _ _ _ _ Hc a c Ha Hne) as (b & l & Hf & Hb & Hl & HG & Hs).
  exists b, l, (second c). destruct c as [f s]; simpl in *; subst f.
  assert (length (G b) < length (G a)) as Hlt.
  { rewrite HG, length_app. destruct l; [done|simpl; lia]. }
  split_and!; try done. intros ->. lia.
Qed.

Lemma chain_nonhead_G m h G a :
  chain_inv tracks m h G → is_Some (m !! a) → a ≠ h → G a ≠ [].
Proof.
  intros Hc [c Ha] Hne.
  destruct (chain_link_inv _ _ _ _ _ Hc Ha Hne)
    as (b & l & s & _ & _ & _ & _ & _ & _ & Hlt).
  intros HG. rewrite HG in Hlt. simpl in Hlt. lia.
Qed.

Lemma path_from_shorter m h G :
  chain_inv tracks m h G →
  ∀ n a x, x ∈ path_from n m a → x = a ∨ length (G x) < length (G a).
Proof.
  intros Hc. induction n as [|n IH]; intros a x; simpl.
  { by intros ?%elem_of_nil. }
  destruct (m !! a) as [c|] eqn:Ha; [|by intros ?%elem_of_nil].
  destruct (first c) as [b|] eqn:Hf.
  2:{ intros ?%list_elem_of_singleton. by left. }
  case_decide as Hba.
  { intros ?%list_elem_of_singleton. by left. }
  intros [->|Hx]%elem_of_cons; [by left|]. right.
  assert (a ≠ h) as Hne.
  { intros ->. rewrite (chain_head _ _ _ _ Hc) in Ha. simplify_eq. simpl in Hf.
    by simplify_eq. }
  destruct (chain_link_inv _ _ _ _ _ Hc Ha Hne)
    as (b' & l & s & -> & _ & _ & _ & _ & _ & Hlt).
  simpl in Hf. simplify_eq.
  destruct (IH _ _ Hx) as [->|?]; lia.
Qed.

Lemma path_from_head m h G n :
  chain_inv tracks m h G → path_from (S n) m h = [h].
Proof.
  intros Hc. simpl. rewrite (chain_head _ _ _ _ Hc). simpl.
  by rewrite decide_True.
Qed.

Lemma path_from_link n m a b s :
  m !! a = Some (Commit (Some b) s) → b ≠ a →
  path_from (S n) m a = a :: path_from n m b.
Proof. intros Ha Hne. simpl. rewrite Ha. simpl. by rewrite decide_False. Qed.

Lemma path_from_start n m a :
  is_Some (m !! a) → a ∈ path_from (S n) m a.
Proof.
  intros [c Ha]. simpl. rewrite Ha. destruct (first c); [case_decide|];
    apply list_elem_of_here.
Qed.

(** The walk from a live commit ends at the head. *)
Lemma path_from_last m h G :
  chain_inv tracks m h G →
  ∀ n a, is_Some (m !! a) → length (G a) < n → last (path_from n m a) = Some h.
Proof.
  intros Hc. induction n as [|n IH]; intros a [c Ha] Hlen; [lia|].
  destruct (decide (a = h)) as [->|Hne].
  { by rewrite (path_from_head _ _ _ _ Hc). }
  destruct (chain_link_inv _ _ _ _ _ Hc Ha Hne)
    as (b & l & s & -> & _ & Hb & _ & _ & Hba & Hlt).
  rewrite (path_from_link _ _ _ _ _ Ha Hba).
  specialize (IH b Hb ltac:(lia)).
  destruct (path_from n m b); [done|]. by rewrite last_cons, IH.
Qed.

(** What one call of [compute_diff_to_current] does to a well-formed chain:
    it returns, every commit on the walk from [a] ends up pointing at the
    head with a delta for its whole history, and nothing else changes. *)
Lemma compress_spec m h G :
  chain_inv tracks m h G →
  ∀ depth a, is_Some (m !! a) → length (G a) < depth →
  ∃ m', compute_diff_to_current_rec depth (Some a) m = Returned m' ∧
        chain_inv tracks m' h G ∧
        (∀ x, is_Some (m' !! x) ↔ is_Some (m !! x)) ∧
        size m' = size m ∧
        (∀ x, x ∈ path_from depth m a →
              ∃ s, m' !! x = Some (Commit (Some h) s) ∧ recorded tracks s (G x)) ∧
        (∀ x, x ∉ path_from depth m a → m' !! x = m !! x).
Proof.
  intros Hc depth. induction depth as [|n IH]; intros a [c Ha] Hlen; [lia|].
  pose proof (chain_head _ _ _ _ Hc) as Hh.
  pose proof (chain_head_G _ _ _ _ Hc) as HGh.
  destruct (decide (a = h)) as [->|Hne].
  { exists m. rewrite (path_from_head _ _ _ _ Hc).
    rewrite (compute_rec_stop _ _ _ _ _ _ Hh Hh).
    split_and!; try done.
    intros x ->%list_elem_of_singleton. exists zero. by rewrite HGh. }
  destruct (chain_link_inv _ _ _ _ _ Hc Ha Hne)
    as (b & l & s & -> & Hs & [cb Hb] & Hl & HG & Hba & Hlt).
  rewrite (path_from_link _ _ _ _ _ Ha Hba).
  destruct (decide (b = h)) as [->|Hbh].
  { exists m. rewrite (compute_rec_stop _ _ _ _ _ _ Ha Hh).
    split_and!; try done.
    intros x [->|Hx]%elem_of_cons.
    - exists s. split; [done|]. rewrite HG, HGh, app_nil_r. by destruct l.
    - destruct n; [by apply elem_of_nil in Hx|].
      rewrite (path_from_head _ _ _ _ Hc) in Hx.
      apply list_elem_of_singleton in Hx as ->. exists zero. by rewrite HGh. }
  destruct (chain_link_inv _ _ _ _ _ Hc Hb Hbh)
    as (b' & l' & s' & -> & _ & _ & Hl' & HGb & Hb'b & _).
  destruct (IH b (ltac:(by eexists)) ltac:(lia))
    as (m1 & Hrec & Hc1 & Hdom1 & Hsz1 & Hpath1 & Hframe1).
  assert (a ∉ path_from n m b) as Hnot.
  { intros [?|?]%(path_from_shorter _ _ _ Hc); [done|lia]. }
  assert (b ∈ path_from n m b) as Hbin.
  { destruct n; [lia|]. apply path_from_start. by eexists. }
  destruct (Hpath1 _ Hbin) as (sb & Hb1 & Hsb).
  pose proof (Hframe1 _ Hnot) as Ha1. rewrite Ha in Ha1.
  assert (G b ≠ []) as HGb' by (rewrite HGb; by destruct l').
  assert (tracks (add s sb) (G a)) as Hv.
  { rewrite HG. apply tracks_app; try done. by destruct (G b). }
  exists (<[a := Commit (Some h) (add s sb)]> m1).
  split.
  { eapply compute_rec_link; eauto. simpl. by intros [=]. }
  split.
  { constructor.
    - rewrite lookup_insert_ne by done. apply (chain_head _ _ _ _ Hc1).
    - done.
    - intros x cx Hx Hxh. destruct (decide (x = a)) as [->|Hxa].
      + rewrite lookup_insert_eq in Hx. injection Hx as <-.
        exists h, (G a). simpl. rewrite lookup_insert_ne by done.
        rewrite (chain_head _ _ _ _ Hc1), HGh, app_nil_r.
        split_and!; try done. rewrite HG. by destruct l.
      + rewrite lookup_insert_ne in Hx by done.
        destruct (chain_link _ _ _ _ Hc1 x cx Hx Hxh)
          as (bx & lx & ? & Hbx & ? & ? & ?).
        exists bx, lx. split_and!; try done.
        destruct (decide (a = bx)) as [->|?].
        * by rewrite lookup_insert_eq.
        * by rewrite lookup_insert_ne. }
  split.
  { intros x. destruct (decide (a = x)) as [->|?].
    - rewrite lookup_insert_eq, Ha. split; by eexists.
    - rewrite lookup_insert_ne by done. apply Hdom1. }
  split.
  { rewrite <- Hsz1. eapply map_size_insert_Some. done. }
  split.
  - intros x [->|Hx]%elem_of_cons.
    + exists (add s sb). rewrite lookup_insert_eq. split; [done|].
      unfold recorded. destruct (G a) eqn:E; [|done].
      rewrite HG in E. by destruct l.
    + rewrite lookup_insert_ne by (intros ->; done). by apply Hpath1.
  - intros x Hx. rewrite not_elem_of_cons in Hx. destruct Hx as [Hxa Hx].
    rewrite lookup_insert_ne by done. by apply Hframe1.
Qed.

(** *** The operations keep the invariant *)

Lemma inv_live_below st h G a :
  inv tracks st h G → is_Some (mem st !! a) → a ≤ h.
Proof. intros Hi Ha. apply (inv_below _ _ _ _ Hi). by apply (inv_dom _ _ _ _ Hi). Qed.

Lemma increment_by_spec st h G d :
  inv tracks st h G →
  ∃ st', increment_by d st = Returned (Version (Some (S h)), st') ∧
         inv tracks st' (S h) (grow G (S h) d) ∧
         storage_ st' = S h :: storage_ st ∧ last_ st' = last_ st ∧
         brk st' = S (brk st) ∧
         (∀ a, is_Some (mem st !! a) → is_Some (mem st' !! a)).
Proof.
  intros Hi. pose proof (inv_chain _ _ _ _ Hi) as Hc.
  destruct (inv_begin _ _ _ _ Hi) as [olds Hs].
  pose proof (inv_brk _ _ _ _ Hi) as Hbrk.
  pose proof (chain_head _ _ _ _ Hc) as Hh.
  pose proof (chain_head_G _ _ _ _ Hc) as HGh.
  assert (mem st !! S h = None) as Hfresh.
  { destruct (mem st !! S h) eqn:E; [|done].
    assert (S h ≤ h) by (eapply inv_live_below; eauto). lia. }
  eexists. split.
  { erewrite increment_by_eq; [|exact Hs|exact Hh|lia]. rewrite Hbrk. done. }
  simpl. rewrite Hs. split_and!; try done.
  2:{ by rewrite Hbrk. }
  2:{ intros a Ha. rewrite !lookup_insert. by repeat case_decide. }
  constructor; simpl.
  - by eexists.
  - constructor.
    + rewrite lookup_insert_ne by lia. by rewrite lookup_insert_eq.
    + unfold grow. by rewrite decide_True.
    + intros a c Ha Hne. destruct (decide (a = h)) as [->|Hah].
      * rewrite lookup_insert_eq in Ha. injection Ha as <-.
        exists (S h), [d]. simpl.
        rewrite lookup_insert_ne by lia. rewrite lookup_insert_eq.
        unfold grow. rewrite decide_False by lia. rewrite decide_True by done.
        rewrite HGh. split_and!; try done.
      * rewrite !lookup_insert_ne in Ha by done.
        destruct (chain_link _ _ _ _ Hc a c Ha ltac:(done))
          as (b & l & Hf & Hb & Hl & HG & Hsum).
        assert (b ≤ h) by (eapply inv_live_below; eauto).
        exists b, l. unfold grow.
        rewrite decide_False by done. rewrite (decide_False (P := b = S h)) by lia.
        rewrite HG, <- app_assoc. split_and!; try done.
        rewrite !lookup_insert. by repeat case_decide.
  - intros a. pose proof (inv_dom _ _ _ _ Hi a) as Hd. rewrite Hs in Hd.
    rewrite elem_of_cons.
    destruct (decide (a = S h)) as [->|?].
    { rewrite lookup_insert_ne by lia. rewrite lookup_insert_eq.
      split; [by eexists|by left]. }
    destruct (decide (a = h)) as [->|?].
    { rewrite lookup_insert_eq. split; [by eexists|]. intros _. right. left. }
    rewrite !lookup_insert_ne by done. rewrite <- Hd.
    split; [by intros [?|?]|by right].
  - pose proof (inv_nodup _ _ _ _ Hi) as Hnd. rewrite Hs in Hnd.
    constructor; [|done]. rewrite <- Hs. intros Hin.
    apply (inv_below _ _ _ _ Hi) in Hin. lia.
  - done.
  - intros a [->|Ha]%elem_of_cons; [lia|].
    rewrite <- Hs in Ha. apply (inv_below _ _ _ _ Hi) in Ha. lia.
  - rewrite map_size_insert_Some.
    2:{ rewrite lookup_insert_ne by lia. by rewrite Hh. }
    rewrite map_size_insert_None by done.
    rewrite (inv_size _ _ _ _ Hi), Hs. done.
  - intros a Ha. unfold grow. case_decide; [simpl; lia|].
    rewrite lookup_insert in Ha. rewrite lookup_insert_ne in Ha by done.
    assert (is_Some (mem st !! a)) as Ha'.
    { case_decide; [subst; by rewrite Hh|done]. }
    pose proof (inv_depth _ _ _ _ Hi a Ha') as Hd. rewrite Hs in Hd.
    rewrite length_app. simpl in *. lia.
  - destruct (inv_last _ _ _ _ Hi) as (o & Ho & Hlive & Hoh).
    exists o. split_and!; try done.
    + rewrite !lookup_insert. by repeat case_decide.
    + assert (o ≤ h) by (eapply inv_live_below; eauto). lia.
Qed.

Lemma diff_to_current_spec st h G a :
  inv tracks st h G → is_Some (mem st !! a) →
  ∃ m' s, diff_to_current (Version (Some a)) st = Returned (s, with_mem st m') ∧
          inv tracks (with_mem st m') h G ∧
          m' !! a = Some (Commit (Some h) s) ∧ recorded tracks s (G a) ∧
          (∀ x, x ∈ path_to_head (mem st) a →
                ∃ sx, m' !! x = Some (Commit (Some h) sx) ∧ recorded tracks sx (G x)) ∧
          (∀ x, x ∉ path_to_head (mem st) a → m' !! x = mem st !! x).
Proof.
  intros Hi Ha. pose proof (inv_chain _ _ _ _ Hi) as Hc.
  pose proof (inv_depth _ _ _ _ Hi a Ha) as Hd.
  rewrite <- (inv_size _ _ _ _ Hi) in Hd.
  destruct (compress_spec _ _ _ Hc (S (size (mem st))) a Ha ltac:(lia))
    as (m' & Hrun & Hc' & Hdom & Hsz & Hpath & Hframe).
  destruct (Hpath a (path_from_start _ _ _ Ha)) as (s & Ha' & Hs).
  exists m', s. split.
  { by rewrite (diff_to_current_eq _ _ _ _ Hrun Ha'). }
  split_and!; try done.
  destruct Hi as [Hb _ Hdm Hnd Hbrk Hbel Hsize Hdep Hlast].
  constructor; simpl; try done.
  - intros x. by rewrite Hdm, Hdom.
  - by rewrite Hsz.
  - intros x Hx. apply Hdep. by apply Hdom.
  - destruct Hlast as (o & ? & ? & ?). exists o. split_and!; try done.
    by apply Hdom.
Qed.

Lemma value_spec st h G :
  inv tracks st h G →
  ∃ o m' s, last_ st = Version (Some o) ∧ o ≠ h ∧
            value st = Returned (s, with_mem st m') ∧
            inv tracks (with_mem st m') h G ∧
            m' !! o = Some (Commit (Some h) s) ∧ tracks s (G o).
Proof.
  intros Hi. destruct (inv_last _ _ _ _ Hi) as (o & Ho & Hlive & Hoh).
  destruct (diff_to_current_spec _ _ _ _ Hi Hlive)
    as (m' & s & Hrun & Hi' & Hm' & Hs & _).
  exists o, m', s. unfold value. rewrite Ho. split_and!; try done.
  pose proof (chain_nonhead_G _ _ _ _ (inv_chain _ _ _ _ Hi) Hlive Hoh).
  unfold recorded in Hs. by destruct (G o).
Qed.

Lemma clear_all (m : gmap addr commit) l :
  (∀ a, is_Some (m !! a) → a ∈ l) → foldr delete m l = ∅.
Proof.
  intros H. apply map_eq. intros i. rewrite lookup_empty.
  destruct (decide (i ∈ l)) as [Hi|Hi].
  - by apply lookup_foldr_delete.
  - rewrite lookup_foldr_delete_not_elem_of by done.
    destruct (m !! i) eqn:E; [|done]. destruct Hi. apply H. by eexists.
Qed.

Lemma reset_spec st v :
  (∀ a, is_Some (mem st !! a) → a ∈ storage_ st) →
  ∃ st', reset v st = Returned (Version (Some (S (brk st))), st') ∧
         inv tracks st' (S (brk st)) (fresh_history (brk st) v) ∧
         storage_ st' = [S (brk st); brk st] ∧
         brk st' = S (S (brk st)) ∧
         last_ st' = Version (Some (brk st)).
Proof.
  intros Hdom. eexists. split; [apply reset_eq|].
  rewrite (clear_all _ _ Hdom). split_and!; try done.
  set (A := brk st). constructor; simpl.
  - by eexists.
  - constructor.
    + rewrite lookup_insert_ne by lia. by rewrite lookup_insert_eq.
    + unfold fresh_history. rewrite decide_False by lia. done.
    + intros a c Ha Hne. rewrite lookup_insert in Ha. case_decide as E.
      * injection Ha as <-. subst a. exists (S A), [v]. simpl.
        rewrite lookup_insert_ne by lia. rewrite lookup_insert_eq.
        unfold fresh_history. rewrite decide_True by done.
        rewrite decide_False by lia. split_and!; try done.
      * rewrite lookup_insert_ne in Ha by done. by rewrite lookup_empty in Ha.
  - intros a. rewrite !elem_of_cons, elem_of_nil.
    destruct (decide (a = A)) as [->|?].
    { rewrite lookup_insert_eq. split; [by eexists|auto]. }
    rewrite lookup_insert_ne by done.
    destruct (decide (a = S A)) as [->|?].
    { rewrite lookup_insert_eq. split; [by eexists|auto]. }
    rewrite lookup_insert_ne by done. rewrite lookup_empty.
    split; [by intros [?|[?|[]]]|by intros [? [=]]].
  - repeat constructor; rewrite ?elem_of_cons, ?elem_of_nil; try tauto.
    intros [?|?]; [lia|done].
  - done.
  - intros a. rewrite !elem_of_cons, elem_of_nil. lia.
  - rewrite map_size_insert_None.
    2:{ rewrite lookup_insert_ne by lia. apply lookup_empty. }
    rewrite map_size_insert_None by apply lookup_empty.
    by rewrite map_size_empty.
  - intros a _. unfold fresh_history. case_decide; simpl; lia.
  - exists A. split_and!; [done| |lia].
    rewrite lookup_insert_eq. by eexists.
Qed.

Lemma clear_history_spec st h G :
  inv tracks st h G →
  ∃ x m' st',
    value st = Returned (x, with_mem st m') ∧
    reset x (with_mem st m') = Returned (Version (Some (S (S h))), st') ∧
    clear_history_statements st = Returned st' ∧
    clear_history st = Undefined MissingReturn ∧
    inv tracks st' (S (S h)) (fresh_history (S h) x) ∧
    storage_ st' = [S (S h); S h] ∧ brk st' = S (S (S h)).
Proof.
  intros Hi.
  destruct (value_spec _ _ _ Hi) as (o & m' & x & Ho & Hoh & Hv & Hi' & Hm' & _).
  assert (value (with_mem st m') = Returned (x, with_mem st m')) as Hv2.
  { unfold value. simpl. rewrite Ho.
    eapply diff_to_current_direct; [exact Hm'|].
    apply (chain_head _ _ _ _ (inv_chain _ _ _ _ Hi')). }
  destruct (reset_spec (with_mem st m') x) as (st' & Hr & Hi2 & Hs2 & Hb2 & _).
  { intros a Ha. by apply (inv_dom _ _ _ _ Hi'). }
  simpl in *. rewrite (inv_brk _ _ _ _ Hi) in *.
  assert (clear_history_statements st = Returned st') as Hrun.
  { unfold clear_history_statements. rewrite Hv. simpl. rewrite Hv2. simpl.
    by rewrite Hr. }
  exists x, m', st'. split_and!; try done.
  unfold clear_history. by rewrite Hrun.
Qed.

(** A query that returns was made on a live commit. *)
Lemma diff_to_current_returned st h G s x st' :
  inv tracks st h G → diff_to_current s st = Returned (x, st') →
  ∃ a m', s = Version (Some a) ∧ is_Some (mem st !! a) ∧
          st' = with_mem st m' ∧ inv tracks st' h G.
Proof.
  intros Hi Hrun. destruct s as [[a|]]; [|by rewrite diff_to_current_null in Hrun].
  destruct (mem st !! a) eqn:Ha.
  2:{ by rewrite diff_to_current_dangling in Hrun. }
  destruct (diff_to_current_spec _ _ _ a Hi ltac:(by eexists))
    as (m' & s & Hrun' & Hi' & _).
  rewrite Hrun' in Hrun. injection Hrun as <- <-.
  exists a, m'. by rewrite Ha.
Qed.

Lemma grows_spec ds st st' :
  grows ds st st' →
  ∀ h G, inv tracks st h G →
  ∃ h' G', inv tracks st' h' G' ∧ last_ st' = last_ st ∧
    (∀ a, is_Some (mem st !! a) → is_Some (mem st' !! a) ∧ G' a = G a ++ ds).
Proof.
  induction 1 as [st|d ds st s st1 st' Hrun _ IH|ds st s x st1 st' Hrun _ IH];
    intros h G Hi.
  - exists h, G. split_and!; try done. intros a Ha. by rewrite app_nil_r.
  - destruct (increment_by_spec _ _ _ d Hi)
      as (st1' & Hrun' & Hi1 & _ & Hl1 & _ & Hlive1).
    rewrite Hrun' in Hrun. injection Hrun as <- <-.
    destruct (IH _ _ Hi1) as (h' & G' & Hi' & Hl' & Hlive').
    exists h', G'. split_and!; [done|congruence|].
    intros a Ha. destruct (Hlive' a (Hlive1 a Ha)) as [? ->]. split; [done|].
    unfold grow. pose proof (inv_live_below _ _ _ _ Hi Ha).
    rewrite decide_False by lia. by rewrite <- app_assoc.
  - destruct (diff_to_current_returned _ _ _ _ _ _ Hi Hrun)
      as (a & m' & -> & Ha & -> & Hi1).
    destruct (IH _ _ Hi1) as (h' & G' & Hi' & Hl' & Hlive').
    exists h', G'. split_and!; try done.
    intros b Hb. apply Hlive'. apply (inv_dom _ _ _ _ Hi1).
    by apply (inv_dom _ _ _ _ Hi).
Qed.

(** Every completed call keeps the invariant, never lowers the allocator
    mark, and puts only newly allocated nodes into the list. *)
Lemma step_inv st st' h G :
  inv tracks st h G → step st st' →
  (∃ h' G', inv tracks st' h' G') ∧ brk st ≤ brk st' ∧
  (∀ a, a ∈ storage_ st' → a ∈ storage_ st ∨ brk st ≤ a).
Proof.
  intros Hi Hstep.
  assert (∀ s x, diff_to_current s st = Returned (x, st') →
    (∃ h' G', inv tracks st' h' G') ∧ brk st ≤ brk st' ∧
    (∀ a, a ∈ storage_ st' → a ∈ storage_ st ∨ brk st ≤ a)) as Hdiff.
  { intros s x Hrun.
    destruct (diff_to_current_returned _ _ _ _ _ _ Hi Hrun)
      as (a & m' & _ & _ & -> & Hi').
    split; [by eauto|]. simpl. split; [lia|]. by left. }
  destruct Hstep as [d s Hrun|x Hrun|s x Hrun|Hrun|v s Hrun].
  - destruct (increment_by_spec _ _ _ d Hi) as (st1 & Hrun' & Hi' & Hs & _ & Hb & _).
    rewrite Hrun' in Hrun. injection Hrun as <- <-.
    split; [by eauto|]. rewrite Hs, Hb. split; [lia|].
    intros a [->|?]%elem_of_cons; [|by left].
    right. rewrite (inv_brk _ _ _ _ Hi). lia.
  - by eapply Hdiff.
  - by eapply Hdiff.
  - destruct (clear_history_spec _ _ _ Hi)
      as (x & m' & st1 & _ & _ & Hrun' & _ & Hi' & Hs & Hb).
    rewrite Hrun' in Hrun. injection Hrun as <-.
    split; [by eauto|]. rewrite Hs, Hb, (inv_brk _ _ _ _ Hi). split; [lia|].
    intros a. rewrite !elem_of_cons, elem_of_nil. lia.
  - destruct (reset_spec st v) as (st1 & Hrun' & Hi' & Hs & Hb & _).
    { intros a Ha. by apply (inv_dom _ _ _ _ Hi). }
    rewrite Hrun' in Hrun. injection Hrun as <- <-.
    split; [by eauto|]. rewrite Hs, Hb. split; [lia|].
    intros a. rewrite !elem_of_cons, elem_of_nil. lia.
Qed.

Lemma archived_spec v :
  ∃ st0, archived v = Returned st0 ∧ inv tracks st0 1 (fresh_history 0 v) ∧
         storage_ st0 = [1; 0] ∧ last_ st0 = Version (Some 0).
Proof.
  destruct (reset_spec blank v) as (st' & Hr & Hi & Hs & Hb & Hl).
  { intros a [c Ha]. unfold blank in Ha. simpl in Ha.
    by rewrite lookup_empty in Ha. }
  exists st'. unfold archived. rewrite Hr. done.
Qed.

Lemma rtc_step_inv st st' h G :
  inv tracks st h G → rtc step st st' → ∃ h' G', inv tracks st' h' G'.
Proof.
  intros Hi Hsteps. revert h G Hi.
  induction Hsteps as [st|st st1 st2 Hstep _ IH]; intros h G Hi; [by eauto|].
  destruct (step_inv _ _ _ _ Hi Hstep) as ((h1 & G1 & Hi1) & _). by eapply IH.
Qed.

Lemma reachable_inv st : reachable st → ∃ h G, inv tracks st h G.
Proof.
  intros (v & st0 & Hctor & Hsteps).
  destruct (archived_spec v) as (st0' & Hctor' & Hi & _).
  rewrite Hctor' in Hctor. injection Hctor as ->.
  by eapply rtc_step_inv.
Qed.

(** A stale version stays stale, and querying it dereferences a node that
    is gone. *)
Lemma rtc_step_stale st st' h G s :
  inv tracks st h G → stale st s → rtc step st st' → stale st' s.
Proof.
  intros Hi Hst Hsteps. revert h G Hi Hst.
  induction Hsteps as [st|st st1 st2 Hstep _ IH]; intros h G Hi Hst; [done|].
  destruct (step_inv _ _ _ _ Hi Hstep) as ((h1 & G1 & Hi1) & Hb & Hnew).
  eapply IH; [done|].
  destruct Hst as (a & Ha & Hlt & Hnot). exists a. split_and!; [done|lia|].
  intros [?|?]%Hnew; [done|lia].
Qed.

Lemma stale_dangling st h G s :
  inv tracks st h G → stale st s → diff_to_current s st = Undefined DanglingIterator.
Proof.
  intros Hi (a & Ha & _ & Hnot). destruct s as [it]. simpl in Ha. subst it.
  apply diff_to_current_dangling.
  destruct (mem st !! a) eqn:E; [|done].
  destruct Hnot. apply (inv_dom _ _ _ _ Hi). by eexists.
Qed.


Lemma increment_all_spec ds :
  ∀ st h G, inv tracks st h G →
  ∃ vs st' h' G',
    increment_all ds st = Returned (vs, st') ∧ inv tracks st' h' G' ∧
    last_ st' = last_ st ∧
    last (current st :: vs) = Some (current st') ∧
    (∀ a, is_Some (mem st !! a) → is_Some (mem st' !! a) ∧ G' a = G a ++ ds).
Proof.
  induction ds as [|d ds IH]; intros st h G Hi.
  { exists [], st, h, G. split_and!; try done.
    intros a Ha. by rewrite app_nil_r. }
  destruct (increment_by_spec _ _ _ d Hi) as (st1 & Hrun & Hi1 & Hs1 & Hl1 & _ & Hlive1).
  destruct (IH _ _ _ Hi1) as (vs & st' & h' & G' & Hrun' & Hi' & Hl' & Hlast & Hlive').
  exists (Version (Some (S h)) :: vs), st', h', G'.
  split_and!; try done.
  - simpl. rewrite Hrun. simpl. by rewrite Hrun'.
  - congruence.
  - rewrite <- Hlast. unfold current at 2. by rewrite Hs1.
  - intros a Ha. destruct (Hlive' a (Hlive1 a Ha)) as [? ->]. split; [done|].
    unfold grow. pose proof (inv_live_below _ _ _ _ Hi Ha).
    rewrite decide_False by lia. by rewrite <- app_assoc.
Qed.

Lemma inv_current st h G : inv tracks st h G → current st = Version (Some h).
Proof. intros Hi. destruct (inv_begin _ _ _ _ Hi) as [olds Hs]. unfold current. by rewrite Hs. Qed.

Lemma inv_head_live st h G : inv tracks st h G → is_Some (mem st !! h).
Proof. intros Hi. rewrite (chain_head _ _ _ _ (inv_chain _ _ _ _ Hi)). by eexists. Qed.

Lemma inv_valid_live st h G s :
  inv tracks st h G → valid st s → ∃ a, s = Version (Some a) ∧ is_Some (mem st !! a).
Proof.
  intros Hi (a & Ha & Hin). exists a. destruct s as [it]. simpl in Ha. subst it.
  split; [done|]. by apply (inv_dom _ _ _ _ Hi).
Qed.

(** In a well-formed list the head is the only commit that is its own
    successor. *)
Lemma inv_single_head st h G :
  inv tracks st h G →
  filter (λ a, Is_true (self_successor (mem st) a)) (storage_ st) = [h].
Proof.
  intros Hi. destruct (inv_begin _ _ _ _ Hi) as [olds Hs].
  pose proof (inv_chain _ _ _ _ Hi) as Hc.
  pose proof (inv_nodup _ _ _ _ Hi) as Hnd. rewrite Hs in Hnd.
  apply NoDup_cons in Hnd as [Hh Hnd].
  assert (∀ a, a ∈ olds → ¬ Is_true (self_successor (mem st) a)) as Hno.
  { intros a Ha. assert (a ≠ h) as Hne by (by intros ->).
    assert (is_Some (mem st !! a)) as [c Hc'].
    { apply (inv_dom _ _ _ _ Hi). rewrite Hs. by right. }
    destruct (chain_link_inv _ _ _ _ _ Hc Hc' Hne)
      as (b & l & s & -> & _ & _ & _ & _ & Hba & _).
    unfold self_successor. rewrite Hc'. simpl.
    rewrite bool_decide_spec. by intros [=]. }
  rewrite Hs, filter_cons_True.
  2:{ unfold self_successor. rewrite (chain_head _ _ _ _ Hc). simpl.
      by rewrite bool_decide_eq_true_2. }
  f_equal. clear Hs Hh Hnd. induction olds as [|a olds IH]; [done|].
  rewrite filter_cons_False by (apply Hno; left).
  apply IH. intros x Hx. apply Hno. by right.
Qed.


End Invariant.
(** ** No call raises *)

Lemma bind_not_raised {A B} (o : outcome A) (k : A → outcome B) :
  o ≠ Raised → (∀ a, k a ≠ Raised) → o ≫= k ≠ Raised.
Proof. intros Ho Hk. destruct o; simpl; auto. Qed.

Lemma deref_not_raised m it : deref m it ≠ Raised.
Proof. unfold deref. destruct it as [a|]; [destruct (m !! a)|]; done. Qed.

Lemma set_first_not_raised m it x : set_first m it x ≠ Raised.
Proof.
  unfold set_first. apply bind_not_raised; [apply deref_not_raised|].
  intros c. by destruct it.
Qed.

Lemma set_second_not_raised m it x : set_second m it x ≠ Raised.
Proof.
  unfold set_second. apply bind_not_raised; [apply deref_not_raised|].
  intros c. by destruct it.
Qed.

Lemma compute_rec_not_raised depth :
  ∀ old m, compute_diff_to_current_rec depth old m ≠ Raised.
Proof.
  induction depth as [|n IH]; intros old m; simpl; [done|].
  apply bind_not_raised; [apply deref_not_raised|]. intros c.
  apply bind_not_raised.
  { unfold is_head_commit. apply bind_not_raised; [apply deref_not_raised|done]. }
  intros [|]; simpl; [done|].
  apply bind_not_raised; [apply IH|]. intros m1.
  apply bind_not_raised; [apply deref_not_raised|]. intros cn.
  apply bind_not_raised; [apply deref_not_raised|]. intros co.
  apply bind_not_raised; [apply set_second_not_raised|]. intros m2.
  apply bind_not_raised; [apply deref_not_raised|]. intros cn'.
  apply set_first_not_raised.
Qed.

Lemma diff_to_current_not_raised s st : diff_to_current s st ≠ Raised.
Proof.
  unfold diff_to_current.
  apply bind_not_raised; [apply compute_rec_not_raised|]. intros m'.
  apply bind_not_raised; [apply deref_not_raised|done].
Qed.

(** ** The shape of the chain *)

Lemma shape_single d : shape d [d].
Proof. done. Qed.

Lemma shape_app s1 l1 s2 l2 :
  l1 ≠ [] → l2 ≠ [] → shape s1 l1 → shape s2 l2 → shape (add s1 s2) (l1 ++ l2).
Proof. done. Qed.

Lemma reachable_shape st : reachable st → ∃ h G, inv shape st h G.
Proof. apply reachable_inv; [apply shape_single|apply shape_app]. Qed.

Lemma discards_stale st st' h G s :
  inv shape st h G → valid st s → discards st st' →
  (∃ h' G', inv shape st' h' G') ∧ stale st' s.
Proof.
  intros Hi (a & Ha & Hin) Hd.
  pose proof (inv_below _ _ _ _ Hi a Hin) as Hle.
  pose proof (inv_brk _ _ _ _ Hi) as Hbrk.
  destruct Hd as [(v & r & Hrun)|Hrun].
  - destruct (reset_spec shape shape_single st v)
      as (st1 & Hrun' & Hi' & Hs & Hb & _).
    { intros x Hx. by apply (inv_dom _ _ _ _ Hi). }
    rewrite Hrun' in Hrun. injection Hrun as <- <-.
    split; [by eauto|]. exists a. rewrite Hs, Hb, Hbrk.
    split_and!; [done|lia|]. rewrite !elem_of_cons, elem_of_nil. lia.
  - destruct (clear_history_spec shape shape_single shape_app _ _ _ Hi)
      as (x & m' & st1 & _ & _ & Hrun' & _ & Hi' & Hs & Hb).
    rewrite Hrun' in Hrun. injection Hrun as <-.
    split; [by eauto|]. exists a. rewrite Hs, Hb.
    split_and!; [done|lia|]. rewrite !elem_of_cons, elem_of_nil. lia.
Qed.

(** C3, as the code has it.  [diff_to_current] makes no validity check and
    has no error path: queried with a default-constructed version it
    dereferences a singular iterator; queried with a version whose chain
    was discarded by [reset] or [clear_history], at any later time, it
    dereferences an iterator to a destroyed node.  Both are undefined
    behaviour, and in no state does it end in a catchable error. *)
Theorem invalid_version_is_unchecked :
  (∀ st, diff_to_current version_default st = Undefined NullIterator) ∧
  (∀ st s st1 st2,
     reachable st → valid st s → discards st st1 → rtc step st1 st2 →
     diff_to_current s st2 = Undefined DanglingIterator) ∧
  (∀ s st, ¬ fails_catchably (diff_to_current s st)).
Proof.
  split_and!.
  - apply diff_to_current_null.
  - intros st s st1 st2 (h & G & Hi)%reachable_shape Hv Hd Hsteps.
    destruct (discards_stale _ _ _ _ _ Hi Hv Hd) as ((h1 & G1 & Hi1) & Hst).
    destruct (rtc_step_inv shape shape_single shape_app _ _ _ _ Hi1 Hsteps)
      as (h2 & G2 & Hi2).
    eapply stale_dangling; [exact Hi2|].
    exact (rtc_step_stale shape shape_single shape_app _ _ _ _ _ Hi1 Hst Hsteps).
  - intros s st. apply diff_to_current_not_raised.
Qed.

(** C4, evidence.  On every archive, [clear_history] runs its statements
    to the closing brace and then flows off the end of the function: it
    hands back no version, although its documentation promises one, and the
    call is undefined. *)
Theorem clear_history_returns_no_version st :
  reachable st →
  (∃ st', clear_history_statements st = Returned st') ∧
  clear_history st = Undefined MissingReturn.
Proof.
  intros (h & G & Hi)%reachable_shape.
  destruct (clear_history_spec shape shape_single shape_app _ _ _ Hi)
    as (x & m' & st1 & _ & _ & Hrun & Hub & _). split; [by exists st1|done].
Qed.

(** C5.  [value()] is [v] right after constructing an archive with [v] and
    right after [reset(v)] on an archive in any state.  The constructor is
    [reset] run on the value-initialised members, and [reset] builds on any
    archive the chain the constructor builds: an origin commit holding [v]
    that points at a head commit, and nothing else in the list. *)
Theorem value_after_construction_and_reset :
  (∀ v, ∃ st0, archived v = Returned st0 ∧ value st0 = Returned (v, st0)) ∧
  (∀ st v, ∃ s st1,
     reset v st = Returned (s, st1) ∧ value st1 = Returned (v, st1) ∧
     let o := brk st in
     storage_ st1 = [S o; o] ∧ last_ st1 = Version (Some o) ∧
     mem st1 !! o = Some (Commit (Some (S o)) v) ∧
     mem st1 !! S o = Some (Commit (Some (S o)) zero)) ∧
  (∀ v, archived v = '(_, st) ← reset v blank; Returned st).
Proof.
  split_and!.
  - intros v. destruct (reset_value blank v) as (s & st1 & Hr & Hv).
    exists st1. unfold archived. by rewrite Hr.
  - intros st v. destruct (reset_value st v) as (s & st1 & Hr & Hv).
    exists s, st1. split_and!; [done..|].
    rewrite reset_eq in Hr. injection Hr as _ <-. simpl. split_and!; try done.
    + apply lookup_insert_eq.
    + rewrite lookup_insert_ne by lia. apply lookup_insert_eq.
  - done.
Qed.

(** C8, evidence.  The statements of [clear_history] leave an archive on
    which [value()] is what it was before them; but the call then flows off
    the end of the function, so that no call of [clear_history] returns and
    the program has no defined state after it. *)
Theorem clear_history_keeps_value st :
  reachable st →
  (∃ x st1 st2 st3,
     value st = Returned (x, st1) ∧
     clear_history_statements st = Returned st2 ∧
     value st2 = Returned (x, st3)) ∧
  clear_history st = Undefined MissingReturn.
Proof.
  intros (h & G & Hi)%reachable_shape.
  destruct (clear_history_spec shape shape_single shape_app _ _ _ Hi)
    as (x & m' & st2 & Hv & Hr & Hrun & Hub & _).
  destruct (reset_value (with_mem st m') x) as (s & st2' & Hr' & Hv2).
  rewrite Hr in Hr'. injection Hr' as _ <-.
  split; [|done]. by exists x, (with_mem st m'), st2, st2.
Qed.

(** C9.  In every state an archive can be in, that is after every
    completed call of the constructor, [increment_by], [value],
    [diff_to_current] and [reset] and after the statements of
    [clear_history], the list holds at least
    one commit, its front is the commit allocated last, and the front is
    the one and only commit of the list that is its own successor. *)
Theorem exactly_one_head st :
  reachable st →
  ∃ h, 0 < length (storage_ st) ∧
       begin (storage_ st) = Some h ∧ brk st = S h ∧
       (∀ a, a ∈ storage_ st → a ≤ h) ∧
       filter (λ a, Is_true (self_successor (mem st) a)) (storage_ st) = [h].
Proof.
  intros (h & G & Hi)%reachable_shape. exists h.
  destruct (inv_begin _ _ _ _ Hi) as [olds Hs].
  split_and!.
  - rewrite Hs. simpl. lia.
  - by rewrite Hs.
  - apply (inv_brk _ _ _ _ Hi).
  - apply (inv_below _ _ _ _ Hi).
  - by eapply inv_single_head.
Qed.


(** ** Sums of deltas *)

(** From here on [operator+=] is taken to be associative. *)
Hypothesis add_assoc : ∀ x y z, add x (add y z) = add (add x y) z.

Lemma foldl_add_assoc l x y : foldl add (add x y) l = add x (foldl add y l).
Proof.
  revert y. induction l as [|a l IH]; intros y; simpl; [done|].
  by rewrite <- add_assoc, IH.
Qed.

Lemma sum_deltas_cons x l : l ≠ [] → sum_deltas (x :: l) = add x (sum_deltas l).
Proof. destruct l as [|y l]; [done|]. intros _. simpl. apply foldl_add_assoc. Qed.

Lemma sum_deltas_app l1 l2 :
  l1 ≠ [] → l2 ≠ [] → sum_deltas (l1 ++ l2) = add (sum_deltas l1) (sum_deltas l2).
Proof.
  intros H1 H2. induction l1 as [|x l1 IH]; [done|].
  destruct l1 as [|y l1].
  - simpl app. by apply sum_deltas_cons.
  - change ((x :: y :: l1) ++ l2) with (x :: ((y :: l1) ++ l2)).
    rewrite sum_deltas_cons by done. rewrite IH by done.
    rewrite (sum_deltas_cons x (y :: l1)) by done. apply add_assoc.
Qed.

Lemma sum_deltas_snoc l d : l ≠ [] → sum_deltas (l ++ [d]) = add (sum_deltas l) d.
Proof. intros. by rewrite sum_deltas_app. Qed.

Lemma sums_single d : sums d [d].
Proof. done. Qed.

Lemma sums_app s1 l1 s2 l2 :
  l1 ≠ [] → l2 ≠ [] → sums s1 l1 → sums s2 l2 → sums (add s1 s2) (l1 ++ l2).
Proof. unfold sums. intros ?? -> ->. symmetry. by apply sum_deltas_app. Qed.

Lemma recorded_sums s l : recorded sums s l → s = sum_deltas l.
Proof. by destruct l. Qed.

Lemma reachable_sums st : reachable st → ∃ h G, inv sums st h G.
Proof. apply reachable_inv; [apply sums_single|apply sums_app]. Qed.

Lemma answers_sums st h G a :
  inv sums st h G → is_Some (mem st !! a) →
  ∃ m', diff_to_current (Version (Some a)) st
        = Returned (sum_deltas (G a), with_mem st m') ∧
        inv sums (with_mem st m') h G.
Proof.
  intros Hi Ha.
  destruct (diff_to_current_spec sums sums_app _ _ _ _ Hi Ha)
    as (m' & s & Hrun & Hi' & _ & ->%recorded_sums & _).
  by exists m'.
Qed.

Lemma value_sums st h G :
  inv sums st h G →
  ∃ o m', last_ st = Version (Some o) ∧ is_Some (mem st !! o) ∧ G o ≠ [] ∧
          value st = Returned (sum_deltas (G o), with_mem st m') ∧
          inv sums (with_mem st m') h G.
Proof.
  intros Hi. destruct (inv_last _ _ _ _ Hi) as (o & Ho & Hlive & Hoh).
  destruct (answers_sums _ _ _ _ Hi Hlive) as (m' & Hrun & Hi').
  exists o, m'. unfold value. rewrite Ho. split_and!; try done.
  eapply chain_nonhead_G; eauto. apply (inv_chain _ _ _ _ Hi).
Qed.

Lemma path_from_live n m a x : x ∈ path_from n m a → is_Some (m !! x).
Proof.
  revert a. induction n as [|n IH]; intros a; simpl.
  { by intros ?%elem_of_nil. }
  destruct (m !! a) as [c|] eqn:Ha; [|by intros ?%elem_of_nil].
  destruct (first c) as [b|].
  2:{ intros ->%list_elem_of_singleton. by eexists. }
  case_decide.
  { intros ->%list_elem_of_singleton. by eexists. }
  intros [->|Hx]%elem_of_cons; [by eexists|]. by eapply IH.
Qed.

(** On a well-formed chain the deltas recorded along the walk from a commit
    add up to the sum of its history. *)
Lemma deltas_from_sum m h G :
  chain_inv sums m h G →
  ∀ n a, is_Some (m !! a) → length (G a) < n →
  sum_deltas (deltas_from n m a) = sum_deltas (G a).
Proof.
  intros Hc. induction n as [|n IH]; intros a [c Ha] Hlen; [lia|].
  pose proof (chain_head _ _ _ _ Hc) as Hh.
  pose proof (chain_head_G _ _ _ _ Hc) as HGh.
  destruct (decide (a = h)) as [->|Hne].
  { simpl. rewrite Hh. simpl. rewrite decide_True by done. by rewrite HGh. }
  destruct (chain_link_inv _ _ _ _ _ _ Hc Ha Hne)
    as (b & l & s & -> & Hs & [cb Hb] & Hl & HG & Hba & Hlt).
  simpl. rewrite Ha. simpl. rewrite decide_False by done.
  unfold sums in Hs. subst s. rewrite HG.
  destruct (decide (b = h)) as [->|Hbh].
  { rewrite HGh, app_nil_r. destruct n; [done|].
    simpl. rewrite Hh. simpl. by rewrite decide_True. }
  destruct (chain_link_inv _ _ _ _ _ _ Hc Hb Hbh)
    as (b' & l' & s' & -> & _ & _ & Hl' & HGb & Hb'b & _).
  assert (G b ≠ []) as HGb' by (rewrite HGb; by destruct l').
  rewrite sum_deltas_cons.
  2:{ destruct n; [lia|]. simpl. rewrite Hb. simpl. by rewrite decide_False. }
  rewrite IH by (by eexists || lia). symmetry. by apply sum_deltas_app.
Qed.

(** C1.  Construct with [v], apply the increments [ds1], capture a version
    (the one the last [increment_by] returned, which is also what
    [current()] gives there), apply the increments [ds2]: querying the
    captured version returns the sum of [ds2], and [Value()] when [ds2] is
    empty.  More generally, on every archive, the version [current()] gives
    answers the sum of the increments applied since, whatever queries were
    made in between. *)
Theorem snapshot_diff_correct :
  (∀ v ds1 ds2,
     ∃ st0 vs1 st1 vs2 st2 st3,
       archived v = Returned st0 ∧
       increment_all ds1 st0 = Returned (vs1, st1) ∧
       last (current st0 :: vs1) = Some (current st1) ∧
       increment_all ds2 st1 = Returned (vs2, st2) ∧
       diff_to_current (current st1) st2 = Returned (sum_deltas ds2, st3)) ∧
  (∀ st ds st',
     reachable st → grows ds st st' →
     answers st' (current st) (sum_deltas ds)).
Proof.
  split.
  - intros v ds1 ds2.
    destruct (archived_spec sums sums_single v) as (st0 & Hctor & Hi0 & _).
    destruct (increment_all_spec sums sums_single ds1 _ _ _ Hi0)
      as (vs1 & st1 & h1 & G1 & Hrun1 & Hi1 & _ & Hlast1 & _).
    destruct (increment_all_spec sums sums_single ds2 _ _ _ Hi1)
      as (vs2 & st2 & h2 & G2 & Hrun2 & Hi2 & _ & _ & Hlive).
    destruct (Hlive h1 (inv_head_live _ _ _ _ Hi1)) as [Hh1 HG2].
    rewrite (chain_head_G _ _ _ _ (inv_chain _ _ _ _ Hi1)) in HG2. simpl in HG2.
    destruct (answers_sums _ _ _ _ Hi2 Hh1) as (m' & Hrun & _).
    rewrite HG2, <- (inv_current _ _ _ _ Hi1) in Hrun.
    by exists st0, vs1, st1, vs2, st2, (with_mem st2 m').
  - intros st ds st' (h & G & Hi)%reachable_sums Hg.
    destruct (grows_spec sums sums_single sums_app _ _ _ Hg _ _ Hi)
      as (h' & G' & Hi' & _ & Hlive).
    destruct (Hlive h (inv_head_live _ _ _ _ Hi)) as [Hh HG'].
    rewrite (chain_head_G _ _ _ _ (inv_chain _ _ _ _ Hi)) in HG'. simpl in HG'.
    destruct (answers_sums _ _ _ _ Hi' Hh) as (m' & Hrun & _).
    rewrite HG', <- (inv_current _ _ _ _ Hi) in Hrun. by eexists.
Qed.

Lemma sum_deltas_app_foldl l ds :
  l ≠ [] → sum_deltas (l ++ ds) = foldl add (sum_deltas l) ds.
Proof. destruct l as [|x l]; [done|]. intros _. simpl. apply foldl_app. Qed.

(** C2.  After constructing with [v] and applying the increments [ds],
    [value()] is [v + d1 + ... + dk]; on every archive, [value()] right
    after [increment_by(delta)] is [value()] right before it plus [delta];
    and on every archive whose [value()] is [w], after the increments [ds],
    with whatever queries in between, [value()] is [w + d1 + ... + dk]. *)
Theorem value_accumulates :
  (∀ v ds, ∃ st0 vs st1 st2,
     archived v = Returned st0 ∧
     increment_all ds st0 = Returned (vs, st1) ∧
     value st1 = Returned (foldl add v ds, st2)) ∧
  (∀ st delta, reachable st →
     ∃ x st1 s st2 st3,
       value st = Returned (x, st1) ∧
       increment_by delta st1 = Returned (s, st2) ∧
       value st2 = Returned (add x delta, st3)) ∧
  (∀ st w ds st',
     reachable st → value_is st w → grows ds st st' →
     value_is st' (foldl add w ds)).
Proof.
  split_and!.
  - intros v ds.
    destruct (archived_spec sums sums_single v) as (st0 & Hctor & Hi0 & _ & Hl0).
    destruct (increment_all_spec sums sums_single ds _ _ _ Hi0)
      as (vs & st1 & h1 & G1 & Hrun1 & Hi1 & Hl1 & _ & Hlive).
    destruct (value_sums _ _ _ Hi1) as (o & m' & Ho & _ & _ & Hval & _).
    rewrite Hl1, Hl0 in Ho. injection Ho as <-.
    destruct (Hlive 0) as [_ HG].
    { destruct (inv_last _ _ _ _ Hi0) as (o & Ho & ? & _).
      rewrite Hl0 in Ho. by injection Ho as <-. }
    rewrite HG in Hval. unfold fresh_history in Hval.
    rewrite decide_True in Hval by done.
    by exists st0, vs, st1, (with_mem st1 m').
  - intros st delta (h & G & Hi)%reachable_sums.
    destruct (value_sums _ _ _ Hi) as (o & m1 & Ho & Hlive & HGo & Hval & Hi1).
    destruct (increment_by_spec sums sums_single _ _ _ delta Hi1)
      as (st2 & Hrun & Hi2 & _ & Hl2 & _).
    destruct (value_sums _ _ _ Hi2) as (o' & m3 & Ho' & _ & _ & Hval2 & _).
    rewrite Hl2 in Ho'. simpl in Ho'. rewrite Ho in Ho'. injection Ho' as <-.
    unfold grow in Hval2.
    pose proof (inv_live_below _ _ _ _ _ Hi Hlive).
    rewrite decide_False in Hval2 by lia.
    rewrite sum_deltas_snoc in Hval2 by done.
    by exists (sum_deltas (G o)), (with_mem st m1), (Version (Some (S h))), st2,
      (with_mem st2 m3).
  - intros st w ds st' (h & G & Hi)%reachable_sums [st1 Hw] Hg.
    destruct (value_sums _ _ _ Hi) as (o & m1 & Ho & Hlive & HGo & Hval & _).
    rewrite Hval in Hw. injection Hw as <- _.
    destruct (grows_spec sums sums_single sums_app _ _ _ Hg _ _ Hi)
      as (h' & G' & Hi' & Hl' & Hlive').
    destruct (value_sums _ _ _ Hi') as (o' & m' & Ho' & _ & _ & Hval' & _).
    rewrite Hl', Ho in Ho'. injection Ho' as <-.
    destruct (Hlive' o Hlive) as [_ HG']. rewrite HG' in Hval'.
    rewrite sum_deltas_app_foldl in Hval' by done. by eexists.
Qed.

(** C6.  A query on a live commit [a] returns, and afterwards every commit
    on the walk from [a] to the head, as the walk was before the query,
    points at the head and holds the sum of the deltas that were recorded
    from it to the head; the head still is its own successor with delta
    [Value()]. *)
Theorem path_compression_postcondition st a :
  reachable st → a ∈ storage_ st →
  ∃ x st' h,
    diff_to_current (Version (Some a)) st = Returned (x, st') ∧
    begin (storage_ st') = Some h ∧
    last (path_to_head (mem st) a) = Some h ∧
    (∀ c, c ∈ path_to_head (mem st) a →
       mem st' !! c
       = Some (Commit (Some h) (sum_deltas (deltas_to_head (mem st) c)))) ∧
    mem st' !! h = Some (Commit (Some h) zero).
Proof.
  intros (h & G & Hi)%reachable_sums Hin.
  pose proof (inv_chain _ _ _ _ Hi) as Hc.
  assert (is_Some (mem st !! a)) as Ha by (by apply (inv_dom _ _ _ _ Hi)).
  assert (∀ c, is_Some (mem st !! c) → length (G c) < S (size (mem st))) as Hd.
  { intros c Hc'. pose proof (inv_depth _ _ _ _ Hi c Hc').
    rewrite (inv_size _ _ _ _ Hi). lia. }
  destruct (diff_to_current_spec sums sums_app _ _ _ _ Hi Ha)
    as (m' & s & Hrun & Hi' & _ & _ & Hpath & _).
  exists s, (with_mem st m'), h. split_and!.
  - done.
  - destruct (inv_begin _ _ _ _ Hi') as [olds Hs]. by rewrite Hs.
  - eapply path_from_last; eauto.
  - intros c Hcin. destruct (Hpath c Hcin) as (sc & Hm' & ->%recorded_sums).
    simpl. rewrite Hm'. do 2 f_equal. symmetry.
    apply path_from_live in Hcin.
    eapply deltas_from_sum; eauto.
  - apply (chain_head _ _ _ _ (inv_chain _ _ _ _ Hi')).
Qed.

(** C7.  On every archive and for valid versions [s] and [t]: the query of
    [s] gives the same answer when it is repeated at once, and neither it
    nor a call of [value()] changes what a later query of [t] or a later
    [value()] returns. *)
Theorem queries_are_observationally_pure st s t :
  reachable st → valid st s → valid st t →
  ∃ x st1 w st2 y,
    diff_to_current s st = Returned (x, st1) ∧
    value st = Returned (w, st2) ∧
    answers st t y ∧
    answers st1 s x ∧ answers st1 t y ∧ value_is st1 w ∧
    answers st2 s x ∧ answers st2 t y ∧ value_is st2 w.
Proof.
  intros (h & G & Hi)%reachable_sums Hs Ht.
  destruct (inv_valid_live _ _ _ _ _ Hi Hs) as (a & -> & Ha).
  destruct (inv_valid_live _ _ _ _ _ Hi Ht) as (b & -> & Hb).
  destruct (answers_sums _ _ _ _ Hi Ha) as (m1 & Hrun1 & Hi1).
  destruct (value_sums _ _ _ Hi) as (o & m2 & Ho & _ & _ & Hval & Hi2).
  assert (∀ m', inv sums (with_mem st m') h G →
    answers (with_mem st m') (Version (Some a)) (sum_deltas (G a)) ∧
    answers (with_mem st m') (Version (Some b)) (sum_deltas (G b)) ∧
    value_is (with_mem st m') (sum_deltas (G o))) as Hafter.
  { intros m' Hi'.
    assert (∀ c, is_Some (mem st !! c) → is_Some (m' !! c)) as Hlive.
    { intros c Hc. apply (inv_dom _ _ _ _ Hi'). by apply (inv_dom _ _ _ _ Hi). }
    split_and!.
    - destruct (answers_sums _ _ _ _ Hi' (Hlive _ Ha)) as (? & ? & _).
      by eexists.
    - destruct (answers_sums _ _ _ _ Hi' (Hlive _ Hb)) as (? & ? & _).
      by eexists.
    - destruct (value_sums _ _ _ Hi') as (o' & ? & Ho' & _ & _ & ? & _).
      simpl in Ho'. rewrite Ho in Ho'. injection Ho' as <-. by eexists. }
  destruct (Hafter _ Hi1) as (? & ? & ?). destruct (Hafter _ Hi2) as (? & ? & ?).
  destruct (answers_sums _ _ _ _ Hi Hb) as (m3 & Hrun3 & _).
  exists (sum_deltas (G a)), (with_mem st m1), (sum_deltas (G o)),
    (with_mem st m2), (sum_deltas (G b)).
  split_and!; try done. by eexists.
Qed.

(** From here on [Value()] is taken to be a left identity of [operator+=]. *)
Hypothesis add_zero_l : ∀ d, add zero d = d.

Lemma sum_deltas_snoc_any l d : sum_deltas (l ++ [d]) = add (sum_deltas l) d.
Proof.
  destruct (decide (l = [])) as [->|Hl]; [by rewrite add_zero_l|].
  by apply sum_deltas_snoc.
Qed.

(** C10.  A version that is valid before [increment_by(d)] is valid after
    it, and its query then returns what it returned before plus [d]; this
    holds whether or not the earlier query was really made. *)
Theorem increment_by_keeps_versions st s d :
  reachable st → valid st s →
  ∃ x st1 r st2 r' st2',
    diff_to_current s st = Returned (x, st1) ∧
    increment_by d st = Returned (r, st2) ∧
    valid st2 s ∧ answers st2 s (add x d) ∧
    increment_by d st1 = Returned (r', st2') ∧
    valid st2' s ∧ answers st2' s (add x d).
Proof.
  intros (h & G & Hi)%reachable_sums Hs.
  destruct (inv_valid_live _ _ _ _ _ Hi Hs) as (a & -> & Ha).
  destruct Hs as (a' & [= <-] & Hin).
  destruct (answers_sums _ _ _ _ Hi Ha) as (m1 & Hrun1 & Hi1).
  assert (∀ st0, inv sums st0 h G → storage_ st0 = storage_ st →
    ∃ r st2, increment_by d st0 = Returned (r, st2) ∧
             valid st2 (Version (Some a)) ∧
             answers st2 (Version (Some a)) (add (sum_deltas (G a)) d)) as Hinc.
  { intros st0 Hi0 Hst0.
    destruct (increment_by_spec sums sums_single _ _ _ d Hi0)
      as (st2 & Hrun & Hi2 & Hs2 & _ & _ & Hlive).
    assert (is_Some (mem st0 !! a)) as Ha0.
    { apply (inv_dom _ _ _ _ Hi0). by rewrite Hst0. }
    destruct (answers_sums _ _ _ _ Hi2 (Hlive _ Ha0)) as (m' & Hrun' & _).
    unfold grow in Hrun'. pose proof (inv_live_below _ _ _ _ _ Hi Ha).
    rewrite decide_False in Hrun' by lia. rewrite sum_deltas_snoc_any in Hrun'.
    exists (Version (Some (S h))), st2. split_and!; [done| |by eexists].
    exists a. split; [done|]. rewrite Hs2, Hst0. by right. }
  destruct (Hinc _ Hi eq_refl) as (r & st2 & ? & ? & ?).
  destruct (Hinc _ Hi1 eq_refl) as (r' & st2' & ? & ? & ?).
  by exists (sum_deltas (G a)), (with_mem st m1), r, st2, r', st2'.
Qed.


(** ** Further properties of the operations *)

Lemma answers_unique st s x y : answers st s x → answers st s y → x = y.
Proof. intros [st1 H1] [st2 H2]. rewrite H1 in H2. by injection H2. Qed.

Lemma value_is_unique st x y : value_is st x → value_is st y → x = y.
Proof. intros [st1 H1] [st2 H2]. rewrite H1 in H2. by injection H2. Qed.

Lemma grows_app ds1 ds2 st st1 st2 :
  grows ds1 st st1 → grows ds2 st1 st2 → grows (ds1 ++ ds2) st st2.
Proof.
  induction 1 as [st|d ds st s st1 st' Hrun _ IH|ds st s x st1 st' Hrun _ IH];
    intros Hg; [done| |].
  - simpl. eapply grows_increment_by; eauto.
  - eapply grows_query; eauto.
Qed.

Lemma grows_storage ds st st' :
  grows ds st st' →
  ∀ h G, inv shape st h G →
  ∃ new, storage_ st' = new ++ storage_ st ∧ length new = length ds ∧
         brk st' = brk st + length ds.
Proof.
  induction 1 as [st|d ds st s st1 st' Hrun _ IH|ds st s x st1 st' Hrun _ IH];
    intros h G Hi.
  - exists []. split_and!; try done; lia.
  - destruct (increment_by_spec shape shape_single _ _ _ d Hi)
      as (st1' & Hrun' & Hi1 & Hs1 & _ & Hb1 & _).
    rewrite Hrun' in Hrun. injection Hrun as <- <-.
    destruct (IH _ _ Hi1) as (new & Hs & Hlen & Hb).
    exists (new ++ [S h]). rewrite Hs, Hs1, Hb, Hb1, <- app_assoc, length_app.
    split_and!; simpl; try done; lia.
  - destruct (diff_to_current_returned shape shape_app _ _ _ _ _ _ Hi Hrun)
      as (a & m' & -> & Ha & -> & Hi1).
    destruct (IH _ _ Hi1) as (new & Hs & Hlen & Hb). by exists new.
Qed.

(** X1.  On every archive [increment_by], [value] and [reset] return: they
    neither run into undefined behaviour nor recurse without end.  A query
    returns exactly for the versions that are valid.  ([clear_history] is
    the one public operation that never returns.) *)
Theorem operations_return st :
  reachable st →
  (∀ d, ∃ s st', increment_by d st = Returned (s, st')) ∧
  (∃ x st', value st = Returned (x, st')) ∧
  (∀ v, ∃ s st', reset v st = Returned (s, st')) ∧
  (∀ s, (∃ x st', diff_to_current s st = Returned (x, st')) ↔ valid st s).
Proof.
  intros (h & G & Hi)%reachable_shape. split_and!.
  - intros d. destruct (increment_by_spec shape shape_single _ _ _ d Hi)
      as (st' & Hrun & _). by eauto.
  - destruct (value_spec shape shape_app _ _ _ Hi) as (o & m' & x & _ & _ & Hrun & _).
    by eauto.
  - intros v. rewrite reset_eq. by eauto.
  - intros s. split.
    + intros (x & st' & Hrun).
      destruct (diff_to_current_returned shape shape_app _ _ _ _ _ _ Hi Hrun)
        as (a & m' & -> & Ha & _).
      exists a. split; [done|]. by apply (inv_dom _ _ _ _ Hi).
    + intros Hs. destruct (inv_valid_live _ _ _ _ _ Hi Hs) as (a & -> & Ha).
      destruct (diff_to_current_spec shape shape_app _ _ _ _ Hi Ha)
        as (m' & x & Hrun & _). by eauto.
Qed.

(** X2.  A query touches nothing but the commits on the walk from the
    queried commit to the head: the list, the origin version, the allocator
    and the set of live commits stay as they are, and so does every commit
    off the walk. *)
Theorem query_changes_only_the_walk st a x st' :
  reachable st →
  diff_to_current (Version (Some a)) st = Returned (x, st') →
  storage_ st' = storage_ st ∧ last_ st' = last_ st ∧ brk st' = brk st ∧
  (∀ c, is_Some (mem st' !! c) ↔ is_Some (mem st !! c)) ∧
  (∀ c, c ∉ path_to_head (mem st) a → mem st' !! c = mem st !! c).
Proof.
  intros (h & G & Hi)%reachable_shape Hrun.
  destruct (diff_to_current_returned shape shape_app _ _ _ _ _ _ Hi Hrun)
    as (a' & m' & [= <-] & Ha & -> & Hi').
  destruct (diff_to_current_spec shape shape_app _ _ _ _ Hi Ha)
    as (m'' & x' & Hrun' & _ & _ & _ & _ & Hframe).
  rewrite Hrun' in Hrun. injection Hrun as -> ->.
  split_and!; try done.
  intros c. by rewrite <- (inv_dom _ _ _ _ Hi'), <- (inv_dom _ _ _ _ Hi).
Qed.

(** X3.  Each [increment_by] puts exactly one new commit at the front of
    the list and queries put none, so an archive constructed and then
    incremented [k] times holds [k + 2] commits, whatever queries were made;
    nothing is ever removed from the list by an increment or a query. *)
Theorem one_commit_per_increment :
  (∀ st ds st',
     reachable st → grows ds st st' →
     ∃ new, storage_ st' = new ++ storage_ st ∧ length new = length ds ∧
            brk st' = brk st + length ds) ∧
  (∀ v ds st0 st',
     archived v = Returned st0 → grows ds st0 st' →
     length (storage_ st') = length ds + 2).
Proof.
  split.
  - intros st ds st' (h & G & Hi)%reachable_shape Hg. by eapply grows_storage.
  - intros v ds st0 st' Hctor Hg.
    destruct (archived_spec shape shape_single v) as (st0' & Hctor' & Hi & Hs & _).
    rewrite Hctor' in Hctor. injection Hctor as ->.
    destruct (grows_storage _ _ _ Hg _ _ Hi) as (new & Hs' & Hlen & _).
    rewrite Hs', length_app, Hs, Hlen. done.
Qed.

(** X4.  After a query, repeating it, or querying any commit that was on
    its walk, is answered without a recursive call and leaves the store
    exactly as it is: the walk from such a commit is the commit and the
    head. *)
Theorem repeated_query_is_direct st a x st1 :
  reachable st →
  diff_to_current (Version (Some a)) st = Returned (x, st1) →
  diff_to_current (Version (Some a)) st1 = Returned (x, st1) ∧
  ∀ c, c ∈ path_to_head (mem st) a →
    compute_diff_to_current_rec 1 (Some c) (mem st1) = Returned (mem st1) ∧
    length (path_to_head (mem st1) c) ≤ 2 ∧
    ∃ y, diff_to_current (Version (Some c)) st1 = Returned (y, st1).
Proof.
  intros (h & G & Hi)%reachable_shape Hrun.
  destruct (diff_to_current_returned shape shape_app _ _ _ _ _ _ Hi Hrun)
    as (a' & m' & [= <-] & Ha & -> & Hi').
  destruct (diff_to_current_spec shape shape_app _ _ _ _ Hi Ha)
    as (m'' & x' & Hrun' & _ & Hm' & _ & Hpath & _).
  rewrite Hrun' in Hrun. injection Hrun as -> ->.
  pose proof (chain_head _ _ _ _ (inv_chain _ _ _ _ Hi')) as Hh. simpl in Hh.
  split.
  { by eapply diff_to_current_direct. }
  intros c Hc. destruct (Hpath c Hc) as (sc & Hmc & _). split_and!.
  - simpl mem. by eapply compute_rec_stop.
  - unfold path_to_head. simpl mem. destruct (decide (c = h)) as [->|Hne].
    + erewrite path_from_head by apply (inv_chain _ _ _ _ Hi'). simpl. lia.
    + rewrite (path_from_link _ _ _ _ _ Hmc) by done.
      pose proof (inv_size _ _ _ _ Hi') as Hsz. simpl in Hsz.
      destruct (inv_begin _ _ _ _ Hi') as [olds Hs]. simpl in Hs.
      rewrite Hs in Hsz. simpl in Hsz. rewrite Hsz.
      erewrite path_from_head by apply (inv_chain _ _ _ _ Hi'). simpl. lia.
  - exists sc. by eapply diff_to_current_direct.
Qed.

(** X5.  The version that [increment_by] or [reset] returns is the one
    [current()] gives afterwards; it was not valid before the call and is
    valid after it.  Querying the current version returns [Value()] and
    leaves the store as it is. *)
Theorem returned_version_is_current st :
  reachable st →
  (∀ d s st', increment_by d st = Returned (s, st') →
     s = current st' ∧ ¬ valid st s ∧ valid st' s) ∧
  (∀ v s st', reset v st = Returned (s, st') →
     s = current st' ∧ ¬ valid st s ∧ valid st' s) ∧
  valid st (current st) ∧
  diff_to_current (current st) st = Returned (zero, st).
Proof.
  intros (h & G & Hi)%reachable_shape.
  assert (∀ a, S h ≤ a → ¬ valid st (Version (Some a))) as Hfresh.
  { intros a Hle (a' & [= <-] & Hin). apply (inv_below _ _ _ _ Hi) in Hin. lia. }
  split_and!.
  - intros d s st' Hrun.
    destruct (increment_by_spec shape shape_single _ _ _ d Hi)
      as (st1 & Hrun' & _ & Hs & _).
    rewrite Hrun' in Hrun. injection Hrun as <- <-.
    unfold current. rewrite Hs. split_and!; [done|by apply Hfresh|].
    exists (S h). split; [done|]. rewrite Hs. by left.
  - intros v s st' Hrun. rewrite reset_eq in Hrun. injection Hrun as <- <-.
    rewrite (inv_brk _ _ _ _ Hi). split_and!; [done|apply Hfresh; lia|].
    exists (S (S h)). split; [done|]. simpl. by left.
  - rewrite (inv_current _ _ _ _ Hi). exists h. split; [done|].
    destruct (inv_begin _ _ _ _ Hi) as [olds ->]. by left.
  - rewrite (inv_current _ _ _ _ Hi).
    pose proof (chain_head _ _ _ _ (inv_chain _ _ _ _ Hi)) as Hh.
    by eapply diff_to_current_direct.
Qed.

(** X6.  [reset] and the statements of [clear_history] invalidate every
    version that was valid before them and leave a list of two commits; the
    statements of [clear_history] leave the archive in the very state that
    [value()] followed by [reset] of the value returned leaves it in. *)
Theorem discarding_invalidates_versions st st' :
  reachable st → discards st st' →
  (∀ s, valid st s → ¬ valid st' s) ∧
  length (storage_ st') = 2 ∧
  (clear_history_statements st = Returned st' →
     ∃ x st1 s, value st = Returned (x, st1) ∧ reset x st1 = Returned (s, st')).
Proof.
  intros (h & G & Hi)%reachable_shape Hd. split_and!.
  - intros s Hs. destruct (discards_stale _ _ _ _ _ Hi Hs Hd) as (_ & a & Ha & _ & Hnot).
    intros (a' & Ha' & Hin). rewrite Ha in Ha'. injection Ha' as <-. done.
  - destruct Hd as [(v & r & Hrun)|Hrun].
    + rewrite reset_eq in Hrun. by injection Hrun as _ <-.
    + destruct (clear_history_spec shape shape_single shape_app _ _ _ Hi)
        as (x & m' & st1 & _ & _ & Hrun' & _ & _ & Hs & _).
      rewrite Hrun' in Hrun. injection Hrun as <-. by rewrite Hs.
  - intros Hrun.
    destruct (clear_history_spec shape shape_single shape_app _ _ _ Hi)
      as (x & m' & st1 & Hv & Hr & Hrun' & _).
    rewrite Hrun' in Hrun. injection Hrun as <-. by eauto.
Qed.

(** X7.  A version captured [k] increments ago is answered by a recursion
    of depth at most [k + 1], however long the list is. *)
Theorem recursion_depth_is_bounded st ds st' :
  reachable st → grows ds st st' →
  ∃ m', compute_diff_to_current_rec (S (length ds))
          (archive_iterator_ (current st)) (mem st') = Returned m'.
Proof.
  intros (h & G & Hi)%reachable_shape Hg.
  destruct (grows_spec shape shape_single shape_app _ _ _ Hg _ _ Hi)
    as (h' & G' & Hi' & _ & Hlive).
  destruct (Hlive h (inv_head_live _ _ _ _ Hi)) as [Hh HG'].
  rewrite (chain_head_G _ _ _ _ (inv_chain _ _ _ _ Hi)) in HG'. simpl in HG'.
  rewrite (inv_current _ _ _ _ Hi). simpl.
  destruct (compress_spec shape shape_app _ _ _ (inv_chain _ _ _ _ Hi')
              (S (length ds)) h Hh) as (m' & Hrun & _).
  { rewrite HG'. lia. }
  by eauto.
Qed.

(** From here on [Value()] is also a right identity of [operator+=]. *)
Hypothesis add_zero_r : ∀ d, add d zero = d.

Lemma sum_deltas_app_any l1 l2 :
  sum_deltas (l1 ++ l2) = add (sum_deltas l1) (sum_deltas l2).
Proof.
  destruct (decide (l1 = [])) as [->|H1]; [by rewrite add_zero_l|].
  destruct (decide (l2 = [])) as [->|H2]; [by rewrite app_nil_r, add_zero_r|].
  by apply sum_deltas_app.
Qed.

Lemma grows_answers st h G ds st' :
  inv sums st h G → grows ds st st' →
  answers st' (current st) (sum_deltas ds) ∧
  ∀ w, value_is st w → value_is st' (add w (sum_deltas ds)).
Proof.
  intros Hi Hg.
  destruct (grows_spec sums sums_single sums_app _ _ _ Hg _ _ Hi)
    as (h' & G' & Hi' & Hl' & Hlive).
  split.
  - destruct (Hlive h (inv_head_live _ _ _ _ Hi)) as [Hh HG'].
    rewrite (chain_head_G _ _ _ _ (inv_chain _ _ _ _ Hi)) in HG'. simpl in HG'.
    destruct (answers_sums _ _ _ _ Hi' Hh) as (m' & Hrun & _).
    rewrite HG', <- (inv_current _ _ _ _ Hi) in Hrun. by eexists.
  - intros w Hw.
    destruct (value_sums _ _ _ Hi) as (o & m1 & Ho & Ho' & HGo & Hval & _).
    rewrite (value_is_unique _ _ _ Hw (ex_intro _ _ Hval)).
    destruct (value_sums _ _ _ Hi') as (o' & m' & Ho2 & _ & _ & Hval' & _).
    rewrite Hl', Ho in Ho2. injection Ho2 as <-.
    destruct (Hlive o Ho') as [_ HG']. rewrite HG' in Hval'.
    destruct (decide (ds = [])) as [->|Hds].
    + rewrite app_nil_r in Hval'. simpl. rewrite add_zero_r. by eexists.
    + rewrite sum_deltas_app in Hval' by done. by eexists.
Qed.

(** X8.  What a version means: at any later time, with whatever increments
    and queries in between, [value()] is [value()] as it was when the
    version was taken plus what [diff_to_current] returns for the version. *)
Theorem value_is_then_plus_diff st w ds st' x :
  reachable st → value_is st w → grows ds st st' →
  answers st' (current st) x → value_is st' (add w x).
Proof.
  intros (h & G & Hi)%reachable_sums Hw Hg Hx.
  destruct (grows_answers _ _ _ _ _ Hi Hg) as [Hx' Hval].
  rewrite (answers_unique _ _ _ _ Hx Hx'). by apply Hval.
Qed.

(** X9.  Diffs compose: for a version taken at one time and a version taken
    later, the diff of the older one is its diff at the time the younger one
    was taken plus the diff of the younger one. *)
Theorem diffs_compose st ds1 st1 ds2 st2 x y :
  reachable st → grows ds1 st st1 → grows ds2 st1 st2 →
  answers st1 (current st) x → answers st2 (current st1) y →
  answers st2 (current st) (add x y).
Proof.
  intros (h & G & Hi)%reachable_sums Hg1 Hg2 Hx Hy.
  destruct (grows_spec sums sums_single sums_app _ _ _ Hg1 _ _ Hi)
    as (h1 & G1 & Hi1 & _).
  destruct (grows_answers _ _ _ _ _ Hi Hg1) as [Hx' _].
  destruct (grows_answers _ _ _ _ _ Hi1 Hg2) as [Hy' _].
  destruct (grows_answers _ _ _ _ _ Hi (grows_app _ _ _ _ _ Hg1 Hg2)) as [Hxy _].
  rewrite (answers_unique _ _ _ _ Hx Hx'), (answers_unique _ _ _ _ Hy Hy').
  by rewrite <- sum_deltas_app_any.
Qed.


End Archived.

(** * Instances at the integers

    The concrete scenario of the test program, and the theorems above
    applied to [archived<int>] states (with mathematical integers for
    [int]). *)

Local Open Scope Z_scope.

(** The archive after [archived<int> a(13); a.increment_by(3);
    a.increment_by(4);]. *)
Local Abbreviation st_13_3_4 :=
  (State (list_to_map [(0%nat, Commit (Some 1%nat) 13);
                       (1%nat, Commit (Some 2%nat) 3);
                       (2%nat, Commit (Some 3%nat) 4);
                       (3%nat, Commit (Some 3%nat) 0)])
         4%nat [3%nat; 2%nat; 1%nat; 0%nat] (Version (Some 0%nat))).

Lemma st_13_3_4_reachable : reachable 0 Z.add st_13_3_4.
Proof.
  eexists 13, _. split; [vm_compute; reflexivity|].
  eapply rtc_l; [eapply (step_increment_by _ _ _ _ 3); vm_compute; reflexivity|].
  eapply rtc_l; [eapply (step_increment_by _ _ _ _ 4); vm_compute; reflexivity|].
  apply rtc_refl.
Qed.

Lemma st_13_3_4_valid (a : nat) :
  (a ≤ 3)%nat → valid st_13_3_4 (Version (Some a)).
Proof.
  intros Ha. exists a. split; [done|]. simpl.
  rewrite !elem_of_cons. lia.
Qed.

(** The scenario of [archived_test.cpp]: start with 13, increment by
    3, 4, 7, 9, 4, 5, 7, 94; the value is then 146, the version taken before
    the first increment is 133 behind, the one taken before the last
    increment 94. *)
Example test_scenario :
  (st0 ← archived 0 13;
   '(vs, st) ← increment_all 0 [3; 4; 7; 9; 4; 5; 7; 94] st0;
   '(x, st1) ← value Z.add st;
   '(y, st2) ← diff_to_current Z.add (current st0) st1;
   '(z, st3) ← diff_to_current Z.add (default version_default (vs !! 6%nat)) st2;
   Returned (x, y, z))
  = Returned (146, 133, 94).
Proof. vm_compute. reflexivity. Qed.

(** The archive after a further [a.reset(5);], and after
    [a.increment_by(2);] on top of that. *)
Local Abbreviation st_reset_5 :=
  (State (list_to_map [(4%nat, Commit (Some 5%nat) 5);
                       (5%nat, Commit (Some 5%nat) 0)])
         6%nat [5%nat; 4%nat] (Version (Some 4%nat))).

Local Abbreviation st_reset_5_2 :=
  (State (list_to_map [(4%nat, Commit (Some 5%nat) 5);
                       (5%nat, Commit (Some 6%nat) 2);
                       (6%nat, Commit (Some 6%nat) 0)])
         7%nat [6%nat; 5%nat; 4%nat] (Version (Some 4%nat))).

(** C1 at 13, then 3 and 4, then 7 and 9; and at the archive above with
    a query of the origin, an increment by 7, [value()] and an increment
    by 9. *)
Lemma snapshot_diff_correct_witness :
  (∃ st0 vs1 st1 vs2 st2 st3,
     archived 0 13 = Returned st0 ∧
     increment_all 0 [3; 4] st0 = Returned (vs1, st1) ∧
     last (current st0 :: vs1) = Some (current st1) ∧
     increment_all 0 [7; 9] st1 = Returned (vs2, st2) ∧
     diff_to_current Z.add (current st1) st2
     = Returned (sum_deltas 0 Z.add [7; 9], st3)) ∧
  (∃ st', grows 0 Z.add [7; 9] st_13_3_4 st' ∧
          answers Z.add st' (current st_13_3_4) (sum_deltas 0 Z.add [7; 9])).
Proof.
  split.
  - exact (proj1 (snapshot_diff_correct 0 Z.add Z.add_assoc) 13 [3; 4] [7; 9]).
  - assert (∃ st', grows 0 Z.add [7; 9] st_13_3_4 st') as [st' Hg].
    { eexists.
      eapply (grows_query _ _ _ _ (Version (Some 0%nat)));
        [vm_compute; reflexivity|].
      eapply grows_increment_by; [vm_compute; reflexivity|].
      eapply (grows_query _ _ _ _ (Version (Some 0%nat)));
        [vm_compute; reflexivity|].
      eapply grows_increment_by; [vm_compute; reflexivity|].
      apply grows_done. }
    exists st'. split; [done|].
    exact (proj2 (snapshot_diff_correct 0 Z.add Z.add_assoc) st_13_3_4 [7; 9] st'
             st_13_3_4_reachable Hg).
Defined.

(** C2 at 13, then 3 and 4, and at a further increment by 7. *)
Lemma value_accumulates_witness :
  (∃ st0 vs st1 st2,
     archived 0 13 = Returned st0 ∧
     increment_all 0 [3; 4] st0 = Returned (vs, st1) ∧
     value Z.add st1 = Returned (foldl Z.add 13 [3; 4], st2)) ∧
  (∃ x st1 s st2 st3,
     value Z.add st_13_3_4 = Returned (x, st1) ∧
     increment_by 0 7 st1 = Returned (s, st2) ∧
     value Z.add st2 = Returned (x + 7, st3)) ∧
  (∃ st', grows 0 Z.add [7] st_13_3_4 st' ∧
          value_is Z.add st' (foldl Z.add 20 [7])).
Proof.
  split_and!.
  - exact (proj1 (value_accumulates 0 Z.add Z.add_assoc) 13 [3; 4]).
  - exact (proj1 (proj2 (value_accumulates 0 Z.add Z.add_assoc)) st_13_3_4 7
             st_13_3_4_reachable).
  - assert (∃ st', grows 0 Z.add [7] st_13_3_4 st') as [st' Hg].
    { eexists.
      eapply grows_increment_by; [vm_compute; reflexivity|].
      eapply (grows_query _ _ _ _ (Version (Some 1%nat)));
        [vm_compute; reflexivity|].
      apply grows_done. }
    exists st'. split; [done|].
    apply (proj2 (proj2 (value_accumulates 0 Z.add Z.add_assoc)) st_13_3_4 20 [7]
             st' st_13_3_4_reachable); [|done].
    eexists. vm_compute. reflexivity.
Defined.

(** C3, the claim as stated fails: the query of a default-constructed
    version, and the query of a version taken before a [reset], end in
    undefined behaviour and not in a catchable error. *)
Lemma invalid_version_query_is_not_caught :
  let null_query :=
    st ← archived 0 13; diff_to_current Z.add version_default st in
  let stale_query :=
    st ← archived 0 13;
    '(_, st1) ← reset 0 5 st;
    diff_to_current Z.add (current st) st1 in
  null_query = Undefined NullIterator ∧
  stale_query = Undefined DanglingIterator ∧
  ¬ fails_catchably null_query ∧ ¬ fails_catchably stale_query.
Proof. vm_compute. split_and!; done. Qed.

(** C3 as amended, at a version taken before [a.reset(5)] and queried
    after a later increment. *)
Lemma invalid_version_is_unchecked_witness :
  reachable 0 Z.add st_13_3_4 ∧
  valid st_13_3_4 (Version (Some 1%nat)) ∧
  discards 0 Z.add st_13_3_4 st_reset_5 ∧
  rtc (step 0 Z.add) st_reset_5 st_reset_5_2 ∧
  diff_to_current Z.add (Version (Some 1%nat)) st_reset_5_2
  = Undefined DanglingIterator.
Proof.
  assert (discards 0 Z.add st_13_3_4 st_reset_5) as Hd.
  { left. exists 5, (Version (Some 5%nat)). vm_compute. reflexivity. }
  assert (rtc (step 0 Z.add) st_reset_5 st_reset_5_2) as Hs.
  { eapply rtc_l; [|apply rtc_refl].
    eapply (step_increment_by _ _ _ _ 2 (Version (Some 6%nat))).
    vm_compute. reflexivity. }
  split_and!; [exact st_13_3_4_reachable|apply st_13_3_4_valid; lia|done|done|].
  exact (proj1 (proj2 (invalid_version_is_unchecked 0 Z.add))
           st_13_3_4 (Version (Some 1%nat)) st_reset_5 st_reset_5_2
           st_13_3_4_reachable (st_13_3_4_valid 1 ltac:(lia)) Hd Hs).
Defined.

(** C4 at the archive above. *)
Lemma clear_history_returns_no_version_witness :
  (∃ st', clear_history_statements 0 Z.add st_13_3_4 = Returned st') ∧
  clear_history 0 Z.add st_13_3_4 = Undefined MissingReturn.
Proof.
  exact (clear_history_returns_no_version 0 Z.add st_13_3_4 st_13_3_4_reachable).
Defined.

(** C8 at the archive above. *)
Lemma clear_history_keeps_value_witness :
  (∃ x st1 st2 st3,
     value Z.add st_13_3_4 = Returned (x, st1) ∧
     clear_history_statements 0 Z.add st_13_3_4 = Returned st2 ∧
     value Z.add st2 = Returned (x, st3)) ∧
  clear_history 0 Z.add st_13_3_4 = Undefined MissingReturn.
Proof.
  exact (clear_history_keeps_value 0 Z.add st_13_3_4 st_13_3_4_reachable).
Defined.

(** C9 at the archive above. *)
Lemma exactly_one_head_witness :
  ∃ h, (0 < length (storage_ st_13_3_4))%nat ∧
       begin (storage_ st_13_3_4) = Some h ∧ brk st_13_3_4 = S h ∧
       (∀ a, a ∈ storage_ st_13_3_4 → (a ≤ h)%nat) ∧
       filter (λ a, Is_true (self_successor (mem st_13_3_4) a))
              (storage_ st_13_3_4) = [h].
Proof. exact (exactly_one_head 0 Z.add st_13_3_4 st_13_3_4_reachable). Defined.

(** C6 at the origin commit of the archive above. *)
Lemma path_compression_postcondition_witness :
  ∃ x st' h,
    diff_to_current Z.add (Version (Some 0%nat)) st_13_3_4 = Returned (x, st') ∧
    begin (storage_ st') = Some h ∧
    last (path_to_head (mem st_13_3_4) 0%nat) = Some h ∧
    (∀ c, c ∈ path_to_head (mem st_13_3_4) 0%nat →
       mem st' !! c
       = Some (Commit (Some h)
                 (sum_deltas 0 Z.add (deltas_to_head (mem st_13_3_4) c)))) ∧
    mem st' !! h = Some (Commit (Some h) 0).
Proof.
  apply (path_compression_postcondition 0 Z.add Z.add_assoc st_13_3_4 0%nat
           st_13_3_4_reachable).
  simpl. rewrite !elem_of_cons. lia.
Defined.

(** C7 at the origin and the second commit of the archive above. *)
Lemma queries_are_observationally_pure_witness :
  ∃ x st1 w st2 y,
    diff_to_current Z.add (Version (Some 0%nat)) st_13_3_4 = Returned (x, st1) ∧
    value Z.add st_13_3_4 = Returned (w, st2) ∧
    answers Z.add st_13_3_4 (Version (Some 1%nat)) y ∧
    answers Z.add st1 (Version (Some 0%nat)) x ∧
    answers Z.add st1 (Version (Some 1%nat)) y ∧ value_is Z.add st1 w ∧
    answers Z.add st2 (Version (Some 0%nat)) x ∧
    answers Z.add st2 (Version (Some 1%nat)) y ∧ value_is Z.add st2 w.
Proof.
  apply (queries_are_observationally_pure 0 Z.add Z.add_assoc st_13_3_4
           (Version (Some 0%nat)) (Version (Some 1%nat)) st_13_3_4_reachable);
    apply st_13_3_4_valid; lia.
Defined.

(** C10 at the head version of the archive above and an increment by 7. *)
Lemma increment_by_keeps_versions_witness :
  ∃ x st1 r st2 r' st2',
    diff_to_current Z.add (Version (Some 3%nat)) st_13_3_4 = Returned (x, st1) ∧
    increment_by 0 7 st_13_3_4 = Returned (r, st2) ∧
    valid st2 (Version (Some 3%nat)) ∧
    answers Z.add st2 (Version (Some 3%nat)) (x + 7) ∧
    increment_by 0 7 st1 = Returned (r', st2') ∧
    valid st2' (Version (Some 3%nat)) ∧
    answers Z.add st2' (Version (Some 3%nat)) (x + 7).
Proof.
  apply (increment_by_keeps_versions 0 Z.add Z.add_assoc Z.add_0_l st_13_3_4
           (Version (Some 3%nat)) 7 st_13_3_4_reachable).
  apply st_13_3_4_valid. lia.
Defined.

(** The archive above after the query [diff_to_current] of its origin
    version, after [a.increment_by(7);], and after a further
    [a.increment_by(9);]. *)
Local Abbreviation st_13_3_4_queried :=
  (State (list_to_map [(0%nat, Commit (Some 3%nat) 20);
                       (1%nat, Commit (Some 3%nat) 7);
                       (2%nat, Commit (Some 3%nat) 4);
                       (3%nat, Commit (Some 3%nat) 0)])
         4%nat [3%nat; 2%nat; 1%nat; 0%nat] (Version (Some 0%nat))).

Local Abbreviation st_13_3_4_7 :=
  (State (list_to_map [(0%nat, Commit (Some 1%nat) 13);
                       (1%nat, Commit (Some 2%nat) 3);
                       (2%nat, Commit (Some 3%nat) 4);
                       (3%nat, Commit (Some 4%nat) 7);
                       (4%nat, Commit (Some 4%nat) 0)])
         5%nat [4%nat; 3%nat; 2%nat; 1%nat; 0%nat] (Version (Some 0%nat))).

Local Abbreviation st_13_3_4_7_9 :=
  (State (list_to_map [(0%nat, Commit (Some 1%nat) 13);
                       (1%nat, Commit (Some 2%nat) 3);
                       (2%nat, Commit (Some 3%nat) 4);
                       (3%nat, Commit (Some 4%nat) 7);
                       (4%nat, Commit (Some 5%nat) 9);
                       (5%nat, Commit (Some 5%nat) 0)])
         6%nat [5%nat; 4%nat; 3%nat; 2%nat; 1%nat; 0%nat]
         (Version (Some 0%nat))).

Lemma st_13_3_4_query :
  diff_to_current Z.add (Version (Some 0%nat)) st_13_3_4
  = Returned (20, st_13_3_4_queried).
Proof. vm_compute. reflexivity. Qed.

Lemma st_13_3_4_grows_7 : grows 0 Z.add [7] st_13_3_4 st_13_3_4_7.
Proof.
  eapply grows_increment_by; [vm_compute; reflexivity|]. apply grows_done.
Qed.

Lemma st_13_3_4_7_grows_9 : grows 0 Z.add [9] st_13_3_4_7 st_13_3_4_7_9.
Proof.
  eapply grows_increment_by; [vm_compute; reflexivity|]. apply grows_done.
Qed.

Lemma st_13_3_4_grows_7_9 : grows 0 Z.add [7; 9] st_13_3_4 st_13_3_4_7_9.
Proof.
  eapply grows_increment_by; [vm_compute; reflexivity|].
  apply st_13_3_4_7_grows_9.
Qed.

(** X1 at the archive above. *)
Lemma operations_return_witness :
  (∀ d, ∃ s st', increment_by 0 d st_13_3_4 = Returned (s, st')) ∧
  (∃ x st', value Z.add st_13_3_4 = Returned (x, st')) ∧
  (∀ v, ∃ s st', reset 0 v st_13_3_4 = Returned (s, st')) ∧
  (∀ s, (∃ x st', diff_to_current Z.add s st_13_3_4 = Returned (x, st'))
        ↔ valid st_13_3_4 s).
Proof. exact (operations_return 0 Z.add st_13_3_4 st_13_3_4_reachable). Defined.

(** X2 at the query of the origin version of the archive above. *)
Lemma query_changes_only_the_walk_witness :
  storage_ st_13_3_4_queried = storage_ st_13_3_4 ∧
  last_ st_13_3_4_queried = last_ st_13_3_4 ∧
  brk st_13_3_4_queried = brk st_13_3_4 ∧
  (∀ c, is_Some (mem st_13_3_4_queried !! c) ↔ is_Some (mem st_13_3_4 !! c)) ∧
  (∀ c, c ∉ path_to_head (mem st_13_3_4) 0%nat →
        mem st_13_3_4_queried !! c = mem st_13_3_4 !! c).
Proof.
  exact (query_changes_only_the_walk 0 Z.add st_13_3_4 0%nat 20 st_13_3_4_queried
           st_13_3_4_reachable st_13_3_4_query).
Defined.

(** X3 at the archive above and the increments 7 and 9, and at 13 followed
    by the increments 3 and 4. *)
Lemma one_commit_per_increment_witness :
  (∃ new, storage_ st_13_3_4_7_9 = new ++ storage_ st_13_3_4 ∧
          length new = length [7; 9] ∧
          brk st_13_3_4_7_9 = (brk st_13_3_4 + length [7; 9])%nat) ∧
  length (storage_ st_13_3_4) = (length [3; 4] + 2)%nat.
Proof.
  split.
  - exact (proj1 (one_commit_per_increment 0 Z.add) st_13_3_4 [7; 9]
             st_13_3_4_7_9 st_13_3_4_reachable st_13_3_4_grows_7_9).
  - apply (proj2 (one_commit_per_increment 0 Z.add) 13 [3; 4]
             (State (list_to_map [(0%nat, Commit (Some 1%nat) 13);
                                  (1%nat, Commit (Some 1%nat) 0)])
                    2%nat [1%nat; 0%nat] (Version (Some 0%nat)))
             st_13_3_4).
    + vm_compute. reflexivity.
    + eapply grows_increment_by; [vm_compute; reflexivity|].
      eapply grows_increment_by; [vm_compute; reflexivity|].
      apply grows_done.
Defined.

(** X4 at the query of the origin version of the archive above. *)
Lemma repeated_query_is_direct_witness :
  diff_to_current Z.add (Version (Some 0%nat)) st_13_3_4_queried
  = Returned (20, st_13_3_4_queried) ∧
  ∀ c, c ∈ path_to_head (mem st_13_3_4) 0%nat →
    compute_diff_to_current_rec Z.add 1 (Some c) (mem st_13_3_4_queried)
    = Returned (mem st_13_3_4_queried) ∧
    (length (path_to_head (mem st_13_3_4_queried) c) ≤ 2)%nat ∧
    ∃ y, diff_to_current Z.add (Version (Some c)) st_13_3_4_queried
         = Returned (y, st_13_3_4_queried).
Proof.
  exact (repeated_query_is_direct 0 Z.add st_13_3_4 0%nat 20 st_13_3_4_queried
           st_13_3_4_reachable st_13_3_4_query).
Defined.

(** X5 at the archive above. *)
Lemma returned_version_is_current_witness :
  (∀ d s st', increment_by 0 d st_13_3_4 = Returned (s, st') →
     s = current st' ∧ ¬ valid st_13_3_4 s ∧ valid st' s) ∧
  (∀ v s st', reset 0 v st_13_3_4 = Returned (s, st') →
     s = current st' ∧ ¬ valid st_13_3_4 s ∧ valid st' s) ∧
  valid st_13_3_4 (current st_13_3_4) ∧
  diff_to_current Z.add (current st_13_3_4) st_13_3_4 = Returned (0, st_13_3_4).
Proof.
  exact (returned_version_is_current 0 Z.add st_13_3_4 st_13_3_4_reachable).
Defined.

(** X6 at [a.reset(5)] on the archive above. *)
Lemma discarding_invalidates_versions_witness :
  (∀ s, valid st_13_3_4 s → ¬ valid st_reset_5 s) ∧
  length (storage_ st_reset_5) = 2%nat ∧
  (clear_history_statements 0 Z.add st_13_3_4 = Returned st_reset_5 →
     ∃ x st1 s, value Z.add st_13_3_4 = Returned (x, st1) ∧
                reset 0 x st1 = Returned (s, st_reset_5)).
Proof.
  apply (discarding_invalidates_versions 0 Z.add st_13_3_4 st_reset_5
           st_13_3_4_reachable).
  left. exists 5, (Version (Some 5%nat)). vm_compute. reflexivity.
Defined.

(** X7 at the archive above and the increments 7 and 9. *)
Lemma recursion_depth_is_bounded_witness :
  ∃ m', compute_diff_to_current_rec Z.add (S (length [7; 9]))
          (archive_iterator_ (current st_13_3_4)) (mem st_13_3_4_7_9)
        = Returned m'.
Proof.
  exact (recursion_depth_is_bounded 0 Z.add st_13_3_4 [7; 9] st_13_3_4_7_9
           st_13_3_4_reachable st_13_3_4_grows_7_9).
Defined.

(** X8 at the archive above, whose value is 20, and the increments 7
    and 9. *)
Lemma value_is_then_plus_diff_witness :
  value_is Z.add st_13_3_4_7_9 (20 + 16).
Proof.
  apply (value_is_then_plus_diff 0 Z.add Z.add_assoc Z.add_0_r st_13_3_4 20
           [7; 9] st_13_3_4_7_9 16 st_13_3_4_reachable).
  - eexists. vm_compute. reflexivity.
  - exact st_13_3_4_grows_7_9.
  - eexists. vm_compute. reflexivity.
Defined.

(** X9 at the archive above, an increment by 7 and an increment by 9. *)
Lemma diffs_compose_witness :
  answers Z.add st_13_3_4_7_9 (current st_13_3_4) (7 + 9).
Proof.
  apply (diffs_compose 0 Z.add Z.add_assoc Z.add_0_l Z.add_0_r st_13_3_4 [7]
           st_13_3_4_7 [9] st_13_3_4_7_9 7 9 st_13_3_4_reachable
           st_13_3_4_grows_7 st_13_3_4_7_grows_9).
  - eexists. vm_compute. reflexivity.
  - eexists. vm_compute. reflexivity.
Defined.

(** * The test program

    [archived_test.cpp] exercises [archived<int>].  [int] arithmetic is taken
    to wrap around at 32 bits; what the program writes to [std::cout] is
    kept as the sequence of the items streamed into it. *)

Definition int_wrap (z : Z) : Z := (z + 2 ^ 31) mod 2 ^ 32 - 2 ^ 31.
Definition int_add (x y : Z) : Z := int_wrap (x + y).
Definition int_sub (x y : Z) : Z := int_wrap (x - y).
Definition is_int (z : Z) : Prop := - 2 ^ 31 ≤ z < 2 ^ 31.

Inductive output : Type :=
  | Text (s : string)
  | Number (n : Z)
  | Flush.

(** The line feed that ends a line of output. *)
Definition endl : string := String (Ascii.ascii_of_nat 10) "".

(** [check_equal] *)
Definition check_equal (a b : Z) (msg : string) : list output * bool :=
  let out := [Text msg; Text " "; Text "First Value: "; Number a; Text ", ";
              Text "Second Value: "; Number b; Text ". "] in
  if Z.eqb a b
  then (out ++ [Text ("OK. " +:+ endl)], true)
  else (out ++ [Text ("Error. " +:+ endl)], false).

(** [*control_values.rbegin()] *)
Definition rbegin_value (control_values : list Z) : outcome Z :=
  match last control_values with
  | Some c => Returned c
  | None => Undefined NullIterator
  end.

(** The loop of the first run: one [increment_by] per element of the test
    data, recording the version returned and the running control value. *)
Fixpoint first_run (test_data : list Z) (version_vector : list version)
    (control_values : list Z) (st : state)
  : outcome (list version * list Z * state) :=
  match test_data with
  | [] => Returned (version_vector, control_values, st)
  | d :: rest =>
      '(new_version, st1) ← increment_by 0 d st;
      c ← rbegin_value control_values;
      let new_control_value := int_add c d in
      first_run rest (version_vector ++ [new_version])
                (control_values ++ [new_control_value]) st1
  end.

(** The checking loop: it walks the versions and the control values side
    by side and returns 1 at the first mismatch. *)
Fixpoint check_run (final_value : Z) (versions : list version)
    (controls : list Z) (st : state) (out : list output)
  : outcome (list output * Z) :=
  match versions with
  | [] => Returned (out, 0)
  | v :: versions' =>
      match controls with
      | [] => Undefined NullIterator
      | c :: controls' =>
          let should_be := int_sub final_value c in
          '(d, st1) ← diff_to_current int_add v st;
          let '(o, ok) := check_equal should_be d "Diffs to Current, First Run." in
          if negb ok then Returned (out ++ o, 1)
          else check_run final_value versions' controls' st1 (out ++ o)
      end
  end.

(** [main], with the test data and the initial value as arguments; it
    returns what was written and the exit code. *)
Definition main_on (test_data : list Z) (initial_value : Z)
  : outcome (list output * Z) :=
  tested_object_1 ← archived 0 initial_value;
  '(v, st) ← value int_add tested_object_1;
  let '(out1, ok) := check_equal initial_value v "Value after construction." in
  if negb ok then Returned (out1, 1)
  else
    let version_vector := [current st] in
    let control_values := [initial_value] in
    let out2 := out1 ++ [Text ("Increment, First Run. " +:+ endl); Flush] in
    '(version_vector, control_values, st1) ←
      first_run test_data version_vector control_values st;
    let out3 := out2 ++ [Text ("Increment Check, First Run. " +:+ endl); Flush] in
    final_value ← rbegin_value control_values;
    check_run final_value version_vector control_values st1 out3.

Definition main : outcome (list output * Z) :=
  main_on [3; 4; 7; 9; 4; 5; 7; 94] 13.

(** The program reports no mismatch. *)
Definition no_error (t : output) : Prop := t ≠ Text ("Error. " +:+ endl).

(** What the loops keep about a version and its control value: the version
    designates a live commit whose history sums to the distance of the
    control value from the current one. *)
Definition pair_ok (st : @state Z) (G : addr → list Z) (cur : Z)
    (v : version) (c : Z) : Prop :=
  ∃ a, v = Version (Some a) ∧ is_Some (mem st !! a) ∧
       sum_deltas 0 int_add (G a) = int_sub cur c.

(** ** Wrap-around arithmetic *)

Lemma int_wrap_mod z : int_wrap z mod 2 ^ 32 = z mod 2 ^ 32.
Proof.
  unfold int_wrap. rewrite Zminus_mod_idemp_l. f_equal. lia.
Qed.

Lemma int_wrap_congr a b : a mod 2 ^ 32 = b mod 2 ^ 32 → int_wrap a = int_wrap b.
Proof.
  intros H. unfold int_wrap.
  by rewrite <- (Zplus_mod_idemp_l a), H, Zplus_mod_idemp_l.
Qed.

Lemma int_wrap_id z : is_int z → int_wrap z = z.
Proof.
  unfold is_int, int_wrap. intros H. rewrite Z.mod_small by lia. lia.
Qed.

Lemma int_add_assoc x y z : int_add x (int_add y z) = int_add (int_add x y) z.
Proof.
  unfold int_add. apply int_wrap_congr.
  rewrite (Zplus_mod x (int_wrap (y + z))), int_wrap_mod, <- Zplus_mod.
  rewrite (Zplus_mod (int_wrap (x + y)) z), int_wrap_mod, <- Zplus_mod.
  f_equal. lia.
Qed.

Lemma int_sub_self x : int_sub x x = 0.
Proof. unfold int_sub. by rewrite Z.sub_diag. Qed.

(** An increment moves the current control value and the history of a
    commit by the same amount. *)
Lemma int_sub_step l cur c d :
  is_int d → sum_deltas 0 int_add l = int_sub cur c →
  sum_deltas 0 int_add (l ++ [d]) = int_sub (int_add cur d) c.
Proof.
  intros Hd Hl. destruct (decide (l = [])) as [->|Hne].
  - simpl in *. rewrite <- (int_wrap_id d Hd) at 1.
    unfold int_sub, int_add in *. apply int_wrap_congr.
    rewrite (Zminus_mod (int_wrap (cur + d)) c), int_wrap_mod, <- Zminus_mod.
    replace (cur + d - c) with ((cur - c) + d) by lia.
    rewrite (Zplus_mod (cur - c) d), <- (int_wrap_mod (cur - c)), <- Hl.
    by rewrite Zmod_0_l, Z.add_0_l, Zmod_mod.
  - rewrite (sum_deltas_snoc 0 int_add int_add_assoc) by done. rewrite Hl.
    unfold int_sub, int_add. apply int_wrap_congr.
    rewrite (Zplus_mod (int_wrap (cur - c)) d), int_wrap_mod, <- Zplus_mod.
    rewrite (Zminus_mod (int_wrap (cur + d)) c), int_wrap_mod, <- Zminus_mod.
    f_equal. lia.
Qed.

(** ** The loops *)

Lemma check_equal_same a msg :
  Text msg ≠ Text ("Error. " +:+ endl) →
  ∃ o, check_equal a a msg = (o, true) ∧ Forall no_error o.
Proof.
  intros Hmsg. unfold check_equal. rewrite Z.eqb_refl. eexists. split; [done|].
  repeat constructor; done.
Qed.

Lemma pair_ok_live st st' G cur v c :
  (∀ a, is_Some (mem st !! a) → is_Some (mem st' !! a)) →
  pair_ok st G cur v c → pair_ok st' G cur v c.
Proof. intros Hlive (a & -> & Ha & Hs). exists a. by eauto. Qed.

Lemma first_run_spec test_data :
  Forall is_int test_data →
  ∀ st h G vv cv cur,
    inv 0 (sums 0 int_add) st h G → last cv = Some cur →
    Forall2 (pair_ok st G cur) vv cv →
    ∃ vv' cv' st' h' G' cur',
      first_run test_data vv cv st = Returned (vv', cv', st') ∧
      inv 0 (sums 0 int_add) st' h' G' ∧ last cv' = Some cur' ∧
      Forall2 (pair_ok st' G' cur') vv' cv'.
Proof.
  induction 1 as [|d rest Hd _ IH]; intros st h G vv cv cur Hi Hlast Hpairs.
  { by exists vv, cv, st, h, G, cur. }
  destruct (increment_by_spec 0 _ (sums_single 0 int_add) _ _ _ d Hi)
    as (st1 & Hrun & Hi1 & _ & _ & _ & Hlive).
  simpl. rewrite Hrun. simpl. unfold rbegin_value. rewrite Hlast. simpl.
  apply (IH _ _ _ _ _ (int_add cur d) Hi1).
  { by rewrite last_snoc. }
  apply Forall2_app.
  - eapply Forall2_impl; [exact Hpairs|].
    intros v c (a & -> & Ha & Hs). exists a. split_and!; [done|by apply Hlive|].
    unfold grow. pose proof (inv_live_below _ _ _ _ _ _ Hi Ha).
    rewrite decide_False by lia. by apply int_sub_step.
  - constructor; [|constructor]. exists (S h). split_and!; [done| |].
    + apply (inv_head_live _ _ _ _ _ Hi1).
    + unfold grow. rewrite decide_True by done. simpl. by rewrite int_sub_self.
Qed.

Lemma check_run_spec final versions :
  ∀ controls st h G out,
    inv 0 (sums 0 int_add) st h G →
    Forall2 (pair_ok st G final) versions controls → Forall no_error out →
    ∃ out', check_run final versions controls st out = Returned (out', 0) ∧
            Forall no_error out'.
Proof.
  induction versions as [|v versions IH]; intros controls st h G out Hi Hpairs Hout.
  { by exists out. }
  apply Forall2_cons_inv_l in Hpairs as (c & controls' & Hvc & Hpairs & ->).
  destruct Hvc as (a & -> & Ha & Hs).
  destruct (answers_sums 0 int_add int_add_assoc _ _ _ _ Hi Ha) as (m' & Hrun & Hi').
  simpl. rewrite Hrun. simpl. rewrite Hs.
  destruct (check_equal_same (int_sub final c) "Diffs to Current, First Run.")
    as (o & -> & Ho); [done|].
  simpl. apply (IH _ _ h G); [done| |by apply Forall_app].
  eapply Forall2_impl; [exact Hpairs|]. intros v' c'. apply pair_ok_live.
  intros b Hb. apply (inv_dom _ _ _ _ _ Hi'). by apply (inv_dom _ _ _ _ _ Hi).
Qed.

(** X10.  The test program passes on every test data and initial value of
    type [int]: it returns 0 and reports no mismatch; in particular so does
    [main] as it is written. *)
Theorem test_program_passes :
  (∀ test_data initial_value,
     is_int initial_value → Forall is_int test_data →
     ∃ out, main_on test_data initial_value = Returned (out, 0) ∧
            Forall no_error out) ∧
  (∃ out, main = Returned (out, 0) ∧ Forall no_error out).
Proof.
  assert (∀ test_data initial_value,
     is_int initial_value → Forall is_int test_data →
     ∃ out, main_on test_data initial_value = Returned (out, 0) ∧
            Forall no_error out) as Hmain.
  { intros test_data init Hinit Hdata. unfold main_on.
    destruct (archived_spec 0 _ (sums_single 0 int_add) init)
      as (st0 & Hctor & Hi0 & _ & Hl0).
    rewrite Hctor. simpl.
    destruct (value_sums 0 int_add int_add_assoc _ _ _ Hi0)
      as (o & m' & Ho & _ & _ & Hval & Hi).
    rewrite Hl0 in Ho. injection Ho as <-. rewrite Hval. simpl.
    destruct (check_equal_same init "Value after construction.")
      as (o1 & -> & Ho1); [done|].
    simpl negb. cbv iota.
    destruct (first_run_spec test_data Hdata (with_mem st0 m') 1%nat
                (fresh_history 0%nat init) [current (with_mem st0 m')] [init] init
                Hi eq_refl) as (vv & cv & st1 & h1 & G1 & cur & Hrun & Hi1 & Hlast & Hpairs).
    { constructor; [|constructor]. exists 1%nat.
      rewrite (inv_current _ _ _ _ _ Hi). split_and!; [done| |].
      - apply (inv_head_live _ _ _ _ _ Hi).
      - unfold fresh_history. rewrite decide_False by lia. simpl.
        by rewrite int_sub_self. }
    rewrite Hrun. simpl. unfold rbegin_value. rewrite Hlast. simpl.
    eapply check_run_spec; [exact Hi1|exact Hpairs|].
    apply Forall_app. split; [|repeat constructor; done].
    apply Forall_app. split; [done|repeat constructor; done]. }
  split; [done|].
  apply Hmain; [unfold is_int; lia|]. repeat constructor; unfold is_int; lia.
Qed.

(** X10 at the data of the program. *)
Lemma test_program_passes_witness :
  ∃ out, main_on [3; 4; 7; 9; 4; 5; 7; 94] 13 = Returned (out, 0) ∧
         Forall no_error out.
Proof.
  apply (proj1 test_program_passes).
  - unfold is_int. lia.
  - repeat constructor; unfold is_int; lia.
Defined.
